(* ===================================================================== *)
(* A shallow embedding of app/main.py, a small regular-expression engine *)
(* (pattern compiler + backtracking matcher), and the properties of its  *)
(* specification.                                                        *)
(*                                                                       *)
(* Conventions of the embedding                                          *)
(*  - a Python character is an [ascii] (code points 0..255); a Python    *)
(*    string is a [list ascii];                                          *)
(*  - a Python [set] of positions is a [gset nat], a set of characters a *)
(*    [gset ascii];                                                      *)
(*  - code that can raise, or loop, runs in the monad [res]: [Ret v] is  *)
(*    a normal return, [Raise e] a RuntimeError, [OutOfFuel] a [while]   *)
(*    loop (or the parser's recursion) that was not finished within the  *)
(*    given number of steps;                                             *)
(*  - [for] loops over finite collections are folds; recursion of        *)
(*    [match_from] over the token list is structural.                    *)
(* ===================================================================== *)

From Stdlib Require Import Ascii String.
From stdpp Require Import base option list sorting gmap strings.

Set Warnings "-clear-no-such-hyp".

Local Open Scope char_scope.

(* --------------------------------------------------------------------- *)
(* Strings                                                               *)
(* --------------------------------------------------------------------- *)

Definition str (s : string) : list ascii := list_ascii_of_string s.

Definition LF : ascii := ascii_of_nat 10.
Definition CR : ascii := ascii_of_nat 13.

(* --------------------------------------------------------------------- *)
(* The result monad                                                      *)
(* --------------------------------------------------------------------- *)

(* The two RuntimeErrors of the compiler:
     UnterminatedClass  'Unterminated character class'
     UnterminatedGroup  "Unterminated group, expected ')'"               *)
Inductive exn : Type := UnterminatedClass | UnterminatedGroup.

Inductive res (A : Type) : Type :=
| Ret (a : A)
| Raise (e : exn)
| OutOfFuel.
Arguments Ret {A} a.
Arguments Raise {A} e.
Arguments OutOfFuel {A}.

Global Instance res_ret : MRet res := λ A a, Ret a.
Global Instance res_bind : MBind res := λ A B k m,
  match m with
  | Ret a => k a
  | Raise e => Raise e
  | OutOfFuel => OutOfFuel
  end.

(* --------------------------------------------------------------------- *)
(* Data model: tokens (ttype, val, quant)                                *)
(* --------------------------------------------------------------------- *)

(* quant: None, '+', '?' *)
Inductive quantifier : Type := QNone | OneOrMore | ZeroOrOne.

(* ttype together with its val *)
Inductive kind : Type :=
| Literal (c : ascii)                           (* ('literal', c, _) *)
| Digit                                         (* ('digit', None, _) *)
| Word                                          (* ('word', None, _) *)
| Class (chars : gset ascii) (negative : bool)  (* ('class', (set, bool), _) *)
| Dot                                           (* ('dot', None, _) *)
| Group (alternatives : list (list token))      (* ('group', alts, _) *)
with token : Type :=
| Token (k : kind) (quant : quantifier).

Definition sequence : Type := list token.

Definition is_group (k : kind) : bool :=
  match k with Group _ => true | _ => false end.

Definition tkind (t : token) : kind := let 'Token k _ := t in k.
Definition tquant (t : token) : quantifier := let 'Token _ q := t in q.

(* --------------------------------------------------------------------- *)
(* Pattern compiler: parse_pattern                                       *)
(* --------------------------------------------------------------------- *)

(* pattern.find(c, start): lowest index >= start holding c, None for -1 *)
Fixpoint find_from (c : ascii) (s : list ascii) (i : nat) : option nat :=
  match s with
  | [] => None
  | x :: s' => if decide (x = c) then Some i else find_from c s' (S i)
  end.

Definition find (c : ascii) (pattern : list ascii) (start : nat) : option nat :=
  find_from c (drop start pattern) start.

(* pattern[a:b] *)
Definition slice (pattern : list ascii) (a b : nat) : list ascii :=
  take (b - a) (drop a pattern).

(* the branch  c == '\\'  at index i: the kind of the atom and the next index *)
Definition parse_escape (pattern : list ascii) (i : nat) : kind * nat :=
  match pattern !! (i + 1) with
  | Some esc =>
      if decide (esc = "d") then (Digit, i + 2)
      else if decide (esc = "w") then (Word, i + 2)
      else (Literal esc, i + 2)
  | None => (Literal "\", i + 1)
  end.

(* s.startswith(c) and s.endswith(c) for a character c *)
Definition startswith (c : ascii) (s : list ascii) : bool :=
  match s with
  | c' :: _ => bool_decide (c' = c)
  | [] => false
  end.

Definition endswith (c : ascii) (s : list ascii) : bool :=
  match last s with
  | Some c' => bool_decide (c' = c)
  | None => false
  end.

(* the branch  c == '['  at index i *)
Definition parse_class (pattern : list ascii) (i : nat) : res (kind * nat) :=
  match find "]" pattern (i + 1) with
  | None => Raise UnterminatedClass
  | Some close =>
      let content := slice pattern (i + 1) close in
      if startswith "^" content then
        Ret (Class (list_to_set (drop 1 content)) true, close + 1)
      else Ret (Class (list_to_set content) false, close + 1)
  end.

(* the quantifier following the atom (if any), and the next index *)
Definition parse_quant (pattern : list ascii) (i : nat) : quantifier * nat :=
  match pattern !! i with
  | Some c =>
      if decide (c = "+") then (OneOrMore, i + 1)
      else if decide (c = "?") then (ZeroOrOne, i + 1)
      else (QNone, i)
  | None => (QNone, i)
  end.

(* "parse an atom": the character c = pattern[i] starts an atom; the kind of
   the atom and the index after it.  [parse_group j] stands for the recursive
   call parse_alternatives(j, ')'). *)
Definition parse_atom (parse_group : nat → res (list sequence * nat))
    (pattern : list ascii) (i : nat) (c : ascii) : res (kind * nat) :=
  if decide (c = "\") then Ret (parse_escape pattern i)
  else if decide (c = "[") then parse_class pattern i
  else if decide (c = ".") then Ret (Dot, i + 1)
  else if decide (c = "(") then
    '(inner_alts, j) ← parse_group (i + 1);
    Ret (Group inner_alts, j)
  else Ret (Literal c, i + 1).

(* parse_alternatives(i, end_char), entered at the head of its while loop
   with the current values of the locals alts and seq (both [] on entry).
   Every evaluation of the loop head, and so every call, uses one unit of
   fuel. *)
Fixpoint parse_alternatives (fuel : nat) (pattern : list ascii)
    (end_char : option ascii) (i : nat) (alts : list sequence) (seq : sequence)
    : res (list sequence * nat) :=
  match fuel with
  | 0 => OutOfFuel
  | S fuel =>
      match pattern !! i with
      | None =>
          (* i >= L: the loop is left *)
          match end_char with
          | None => Ret (alts ++ [seq], i)
          | Some _ => Raise UnterminatedGroup
          end
      | Some c =>
          if decide (end_char = Some c) then Ret (alts ++ [seq], i + 1)
          else if decide (c = "|") then
            parse_alternatives fuel pattern end_char (i + 1) (alts ++ [seq]) []
          else
            '(k, i) ←
              parse_atom
                (λ j, parse_alternatives fuel pattern (Some ")") j [] [])
                pattern i c;
            let '(quant, i) := parse_quant pattern i in
            parse_alternatives fuel pattern end_char i alts (seq ++ [Token k quant])
      end
  end.

Definition parse_pattern (pattern : list ascii) : res sequence :=
  '(alts, idx) ← parse_alternatives (S (length pattern)) pattern None 0 [] [];
  match alts with
  | [seq] => Ret seq
  | _ => Ret [Token (Group alts) QNone]
  end.

(* --------------------------------------------------------------------- *)
(* Character predicates                                                  *)
(* --------------------------------------------------------------------- *)

Definition in_range (lo hi : nat) (ch : ascii) : bool :=
  let n := nat_of_ascii ch in ((lo <=? n)%nat && (n <=? hi)%nat).

(* str.isdigit on code points 0..255: 0-9 and the superscripts 1, 2, 3 *)
Definition isdigit (ch : ascii) : bool :=
  in_range 48 57 ch || in_range 178 179 ch || in_range 185 185 ch.

(* str.isalnum on code points 0..255: letters, digits and the fractions *)
Definition isalnum (ch : ascii) : bool :=
  isdigit ch
  || in_range 65 90 ch || in_range 97 122 ch
  || in_range 170 170 ch || in_range 181 181 ch || in_range 186 186 ch
  || in_range 188 190 ch
  || in_range 192 214 ch || in_range 216 246 ch || in_range 248 255 ch.

Definition token_matches_char (t : token) (ch : ascii) : bool :=
  match tkind t with
  | Literal val => bool_decide (ch = val)
  | Digit => isdigit ch
  | Word => isalnum ch || bool_decide (ch = "_")
  | Class chars negative =>
      if negative then bool_decide (ch ∉ chars) else bool_decide (ch ∈ chars)
  | Dot => bool_decide (ch ≠ LF)
  | Group _ => false
  end.

(* --------------------------------------------------------------------- *)
(* Matcher: match_from                                                   *)
(* --------------------------------------------------------------------- *)

(* pos < n and token_matches_char(tokens[i], line[pos]) *)
Definition matches_at (t : token) (line : list ascii) (pos : nat) : bool :=
  match line !! pos with
  | Some ch => token_matches_char t ch
  | None => false
  end.

(* while p < n and token_matches_char(tokens[i], line[p]): p += 1 *)
Fixpoint scan (fuel : nat) (t : token) (line : list ascii) (p : nat) : res nat :=
  match fuel with
  | 0 => OutOfFuel
  | S fuel => if matches_at t line p then scan fuel t line (p + 1) else Ret p
  end.

(* for x in xs: results.update(f(x)) *)
Fixpoint update_each (f : nat → res (gset nat)) (xs : list nat)
    (results : gset nat) : res (gset nat) :=
  match xs with
  | [] => Ret results
  | x :: xs => ends ← f x; update_each f xs (results ∪ ends)
  end.

(* range(max_k, 0, -1) *)
Definition range_down (max_k : nat) : list nat := reverse (seq 1 max_k).

(* sorted(reachable, reverse=True) *)
Definition sorted_desc (s : gset nat) : list nat :=
  reverse (merge_sort (≤) (elements s)).

(* A matcher is match_sequence(alt, _) for one alternative alt. *)
Definition matcher : Type := nat → res (gset nat).

(* for alt in alternatives:
     ends_after_alt = match_sequence(alt, pos)
     for end in ends_after_alt: results.update(rest(end))                *)
Fixpoint each_alternative (ms : list matcher) (rest : matcher) (pos : nat)
    (results : gset nat) : res (gset nat) :=
  match ms with
  | [] => Ret results
  | m :: ms =>
      ends_after_alt ← m pos;
      results ← update_each rest (elements ends_after_alt) results;
      each_alternative ms rest pos results
  end.

(* for alt in alternatives: first_positions.update(match_sequence(alt, pos)) *)
Fixpoint first_round (ms : list matcher) (pos : nat) (first_positions : gset nat)
    : res (gset nat) :=
  match ms with
  | [] => Ret first_positions
  | m :: ms => ends ← m pos; first_round ms pos (first_positions ∪ ends)
  end.

(* The three sets the closure loop updates. *)
Record closure_state : Type := ClosureState {
  st_visited : gset nat;
  st_new_frontier : gset nat;
  st_reachable : gset nat
}.

(* if e not in visited: visited.add(e); new_frontier.add(e); reachable.add(e) *)
Definition add_new (st : closure_state) (e : nat) : closure_state :=
  if decide (e ∈ st_visited st) then st
  else ClosureState ({[e]} ∪ st_visited st) ({[e]} ∪ st_new_frontier st)
                    ({[e]} ∪ st_reachable st).

(* for alt in alternatives: ends = match_sequence(alt, p); for e in ends: ... *)
Fixpoint expand_alternatives (ms : list matcher) (p : nat) (st : closure_state)
    : res closure_state :=
  match ms with
  | [] => Ret st
  | m :: ms =>
      ends ← m p;
      expand_alternatives ms p (foldl add_new st (elements ends))
  end.

(* for p in frontier: ... *)
Fixpoint expand_frontier (ms : list matcher) (ps : list nat) (st : closure_state)
    : res closure_state :=
  match ps with
  | [] => Ret st
  | p :: ps => st ← expand_alternatives ms p st; expand_frontier ms ps st
  end.

(* while frontier: ... ; the value of reachable when the loop is left *)
Fixpoint closure (fuel : nat) (ms : list matcher)
    (frontier visited reachable : gset nat) : res (gset nat) :=
  match fuel with
  | 0 => OutOfFuel
  | S fuel =>
      if decide (frontier = ∅) then Ret reachable
      else
        st ← expand_frontier ms (elements frontier)
               (ClosureState visited ∅ reachable);
        closure fuel ms (st_new_frontier st) (st_visited st) (st_reachable st)
  end.

(* Matching a sequence when the body of match_from for one token is
   [match_token t rest], [rest] standing for match_from(tokens, i+1, _, line):
     if i == len(tokens): return {pos}                                   *)
Definition match_tokens (match_token : token → matcher → matcher)
    : list token → matcher :=
  fix go (tokens : list token) : matcher :=
    match tokens with
    | [] => λ pos, Ret {[pos]}
    | t :: tokens' => match_token t (go tokens')
    end.

(* The body of match_from for the token t = tokens[i], where [rest] stands
   for match_from(tokens, i+1, _, line).  The local function match_sequence
   is match_from(seq_tokens, 0, _, line).
   [fuel] bounds the number of times the head of each while loop is
   evaluated. *)
Fixpoint match_token (fuel : nat) (line : list ascii) (t : token)
    (rest : matcher) (pos : nat) {struct t} : res (gset nat) :=
  let match_sequence := match_tokens (match_token fuel line) in
  match t with
  | Token (Group alternatives) quant =>
      let ms : list matcher := map match_sequence alternatives in
      match quant with
      | QNone => each_alternative ms rest pos ∅
      | ZeroOrOne =>
          zero ← rest pos;
          each_alternative ms rest pos (∅ ∪ zero)
      | OneOrMore =>
          first_positions ← first_round ms pos ∅;
          if decide (first_positions = ∅) then Ret ∅
          else
            reachable ← closure fuel ms first_positions first_positions
                          first_positions;
            update_each rest (sorted_desc reachable) ∅
      end
  | Token _ quant =>
      match quant with
      | QNone =>
          if matches_at t line pos then rest (pos + 1) else Ret ∅
      | OneOrMore =>
          if negb (matches_at t line pos) then Ret ∅
          else
            p ← scan fuel t line pos;
            let max_k := p - pos in
            update_each (λ k, rest (pos + k)) (range_down max_k) ∅
      | ZeroOrOne =>
          zero ← rest pos;
          if matches_at t line pos then
            one ← rest (pos + 1); Ret (∅ ∪ zero ∪ one)
          else Ret (∅ ∪ zero)
      end
  end.

(* match_from(tokens, i, pos, line), with tokens[i:] as the list [tokens] *)
Definition match_from (fuel : nat) (line : list ascii) (tokens : sequence)
    (pos : nat) : res (gset nat) :=
  match_tokens (match_token fuel line) tokens pos.

(* --------------------------------------------------------------------- *)
(* Top level: match_pattern                                              *)
(* --------------------------------------------------------------------- *)

(* The line boundaries of str.splitlines among the code points 0..255:
   \n, \v, \f, \r, \x1c, \x1d, \x1e, \x85. *)
Definition is_linebreak (ch : ascii) : bool :=
  in_range 10 13 ch || in_range 28 30 ch || in_range 133 133 ch.

(* input_line.splitlines(), with [cur] the reversed line being read; \r\n is
   one boundary; there is no empty last line after a final boundary. *)
Fixpoint splitlines_from (cur : list ascii) (s : list ascii)
    : list (list ascii) :=
  match s with
  | [] => match cur with [] => [] | _ => [reverse cur] end
  | ch :: s' =>
      if is_linebreak ch then
        reverse cur ::
          match s' with
          | ch' :: s'' =>
              if decide (ch = CR ∧ ch' = LF) then splitlines_from [] s''
              else splitlines_from [] s'
          | [] => splitlines_from [] s'
          end
      else splitlines_from (ch :: cur) s'
  end.

Definition splitlines (s : list ascii) : list (list ascii) :=
  splitlines_from [] s.

(* for x in xs: if f(x): return True       (and False after the loop) *)
Fixpoint any_res {A : Type} (f : A → res bool) (xs : list A) : res bool :=
  match xs with
  | [] => Ret false
  | x :: xs => b ← f x; if b : bool then Ret true else any_res f xs
  end.

(* range(0, n+1) *)
Definition starts (n : nat) : list nat := seq 0 (n + 1).

(* the local function match_in_line of match_pattern *)
Definition match_in_line (fuel : nat) (tokens : sequence)
    (anchor_start anchor_end : bool) (line : list ascii) : res bool :=
  let n := length line in
  if anchor_start && anchor_end then
    ends ← match_from fuel line tokens 0;
    Ret (bool_decide (n ∈ ends))
  else if anchor_start then
    ends ← match_from fuel line tokens 0;
    Ret (bool_decide (0 < size ends))
  else if anchor_end then
    any_res (λ start, ends ← match_from fuel line tokens start;
                      Ret (bool_decide (n ∈ ends))) (starts n)
  else
    any_res (λ start, ends ← match_from fuel line tokens start;
                      Ret (bool_decide (ends ≠ ∅))) (starts n).

Definition match_pattern (fuel : nat) (input_line pattern : list ascii)
    : res bool :=
  let anchor_start := startswith "^" pattern in
  let pattern := if anchor_start then drop 1 pattern else pattern in
  let anchor_end := endswith "$" pattern in
  let pattern := if anchor_end then removelast pattern else pattern in
  tokens ← parse_pattern pattern;
  if decide (length tokens = 0) then
    (* handle empty pattern *)
    let lines := splitlines input_line in
    if anchor_start || anchor_end then
      Ret (existsb (λ line, bool_decide (line = [])) lines
           || (bool_decide (input_line = []) && (anchor_start || anchor_end)))
    else Ret true
  else
    let lines := splitlines input_line in
    let lines :=
      if bool_decide (length lines = 0) && bool_decide (input_line = [])
      then [[]] else lines in
    found ← any_res (match_in_line fuel tokens anchor_start anchor_end) lines;
    if found : bool then Ret true
    else if negb anchor_start && negb anchor_end then
      let full := input_line in
      let n := length full in
      any_res (λ start, ends ← match_from fuel full tokens start;
                        Ret (bool_decide (ends ≠ ∅))) (starts n)
    else Ret false.

(* matches(line, pattern) of the specification: match_pattern, every while
   loop of the matcher being given length(input)+2 evaluations of its head
   (the theorems below show that this is always enough). *)
Definition matches (input_line pattern : list ascii) : res bool :=
  match_pattern (S (S (length input_line))) input_line pattern.


(* main(): sys.argv and the text read from standard input are given; the
   result is the lines printed and the status exit() is called with.  An
   error raised by match_pattern is not caught. *)
Definition main (fuel : nat) (argv : list (list ascii)) (stdin : list ascii)
    : res (list (list ascii) * nat) :=
  if decide (length argv < 3) then
    Ret ([str "Usage: ./your_program.sh -E <pattern>"], 2)
  else if decide (argv !! 1 ≠ Some (str "-E")) then
    Ret ([str "Expected first argument to be '-E'"], 1)
  else
    let pattern := argv !!! 2 in
    let input_line := stdin in
    found ← match_pattern fuel input_line pattern;
    if found : bool then Ret ([], 0) else Ret ([], 1).

(* ===================================================================== *)
(* What the code computes: sets of positions, results, pattern shapes    *)
(* ===================================================================== *)

(* The union of R e over the positions e of a set. *)
Definition bigcup (R : nat → gset nat) (X : gset nat) : gset nat :=
  ⋃ (R <$> elements X).

(* One occurrence of a group at p: the union over the alternatives. *)
Definition step (Fs : list (nat → gset nat)) (p : nat) : gset nat :=
  ⋃ ((λ F, F p) <$> Fs).

(* [m] returns the set [F p] at every position p *)
Definition computes (m : matcher) (F : nat → gset nat) : Prop :=
  ∀ p, m p = Ret (F p).

(* The positions reached from pos by one or more consecutive steps: the
   least set that contains step pos and is closed under step. *)
Inductive reach (step : nat → gset nat) (pos : nat) : nat → Prop :=
| reach_once e : e ∈ step pos → reach step pos e
| reach_more p e : reach step pos p → e ∈ step p → reach step pos e.

(* A set-valued function moves forward and stays within the line. *)
Definition in_range_of (n : nat) (F : nat → gset nat) : Prop :=
  ∀ p e, e ∈ F p → p ≤ e ≤ p `max` n.

(* the positions the closure of a OneOrMore group can contain, from pos0 in
   a line of length n *)
Definition span (n pos0 : nat) : gset nat :=
  set_seq pos0 (S (pos0 `max` n - pos0)).

(* The invariant of the while loop at its head. *)
Record closure_inv (n pos0 : nat) (Fs : list (nat → gset nat))
    (frontier visited : gset nat) : Prop := {
  inv_frontier : frontier ⊆ visited;
  inv_sound : ∀ v, v ∈ visited → reach (step Fs) pos0 v;
  inv_first : step Fs pos0 ⊆ visited;
  inv_expanded : ∀ v, v ∈ visited → v ∉ frontier → step Fs v ⊆ visited;
  inv_span : visited ⊆ span n pos0
}.

(* With fuel >= length(line) + 2 the matcher returns a set that does not
   depend on the fuel, of positions between pos and the end of the line. *)
Definition total (line : list ascii) (M : nat → matcher) : Prop :=
  ∀ pos, ∃ ends,
    (∀ fuel, S (S (length line)) ≤ fuel → M fuel pos = Ret ends)
    ∧ ∀ e, e ∈ ends → pos ≤ e ≤ pos `max` length line.

(* The length of the longest prefix of s whose characters satisfy the
   predicate of t. *)
Fixpoint run (t : token) (s : list ascii) : nat :=
  match s with
  | [] => 0
  | ch :: s' => if token_matches_char t ch then S (run t s') else 0
  end.

(* maxK: the maximal run length of t in line from pos *)
Definition max_run (t : token) (line : list ascii) (pos : nat) : nat :=
  run t (drop pos line).

Definition ends_of (m : res (gset nat)) : gset nat :=
  match m with Ret s => s | _ => ∅ end.

(* The set of end positions match_from returns (Theorem match_from_ret). *)
Definition match_set (line : list ascii) (tokens : sequence) (pos : nat)
    : gset nat :=
  ends_of (match_from (S (S (length line))) line tokens pos).
Arguments match_set : simpl never.

(* One occurrence of a group at p: the end positions of all alternatives. *)
Definition one_occurrence (line : list ascii) (alternatives : list (list token))
    (p : nat) : gset nat :=
  ⋃ ((λ alt, match_set line alt p) <$> alternatives).

(* anchor_start, anchor_end and the pattern that is compiled *)
Definition anchor_start (pattern : list ascii) : bool := startswith "^" pattern.

Definition strip_start (pattern : list ascii) : list ascii :=
  if anchor_start pattern then drop 1 pattern else pattern.

Definition anchor_end (pattern : list ascii) : bool :=
  endswith "$" (strip_start pattern).

Definition strip_anchors (pattern : list ascii) : list ascii :=
  if anchor_end pattern then removelast (strip_start pattern)
  else strip_start pattern.

(* The driving logic of the specification for one line of length n:
   both anchors, n is among the end positions from 0; start anchor only, the
   set from 0 is non-empty; end anchor only, some start in 0..n reaches n;
   no anchor, some start in 0..n has a non-empty set. *)
Definition line_matches (tokens : sequence) (a_start a_end : bool)
    (line : list ascii) : bool :=
  let n := length line in
  if a_start && a_end then bool_decide (n ∈ match_set line tokens 0)
  else if a_start then bool_decide (match_set line tokens 0 ≠ ∅)
  else if a_end then
    existsb (λ start, bool_decide (n ∈ match_set line tokens start)) (starts n)
  else
    existsb (λ start, bool_decide (match_set line tokens start ≠ ∅)) (starts n).

(* the lines match_pattern tests when the compiled pattern is not empty *)
Definition lines_of (input_line : list ascii) : list (list ascii) :=
  let lines := splitlines input_line in
  if bool_decide (length lines = 0) && bool_decide (input_line = [])
  then [[]] else lines.

(* What match_pattern returns for a pattern compiled to [tokens]. *)
Definition match_result (tokens : sequence) (a_start a_end : bool)
    (input_line : list ascii) : bool :=
  if decide (length tokens = 0) then
    if a_start || a_end then
      existsb (λ line, bool_decide (line = [])) (splitlines input_line)
      || (bool_decide (input_line = []) && (a_start || a_end))
    else true
  else
    existsb (line_matches tokens a_start a_end) (lines_of input_line)
    || (negb a_start && negb a_end && line_matches tokens false false input_line).

(* an input without line boundary *)
Definition single_line (s : list ascii) : bool :=
  forallb (λ ch, negb (is_linebreak ch)) s.

(* Every Group token in the tree of t has at least one alternative. *)
Fixpoint groups_nonempty (t : token) : bool :=
  match t with
  | Token (Group alternatives) _ =>
      match alternatives with
      | [] => false
      | _ => forallb (forallb groups_nonempty) alternatives
      end
  | Token _ _ => true
  end.

(* pattern[i] in ('+', '?'), and the quantifier it stands for *)
Definition is_quantifier (c : ascii) : bool :=
  bool_decide (c = "+") || bool_decide (c = "?").

Definition quantifier_of (c : ascii) : quantifier :=
  if decide (c = "+") then OneOrMore else ZeroOrOne.

(* the characters the compiler or match_pattern gives a meaning to *)
Definition metachars : list ascii := str "\[]^$.()|+?".

Definition literal_only (pattern : list ascii) : bool :=
  forallb (λ c, negb (bool_decide (c ∈ metachars))) pattern.

(* one Literal token without quantifier for each character *)
Definition literals (s : list ascii) : sequence :=
  (λ c, Token (Literal c) QNone) <$> s.

(* p is a contiguous substring of l *)
Definition substring (p l : list ascii) : Prop :=
  ∃ pre post, l = pre ++ p ++ post.

(* --------------------------------------------------------------------- *)
(* The words a token sequence denotes                                    *)
(* --------------------------------------------------------------------- *)

(* the concatenations of one or more words of L *)
Inductive plus (L : list ascii → Prop) : list ascii → Prop :=
| plus_once w : L w → plus L w
| plus_more w1 w2 : plus L w1 → L w2 → plus L (w1 ++ w2).

(* the words of a quantified atom or group whose single occurrences are L *)
Definition quant_lang (quant : quantifier) (L : list ascii → Prop)
    : list ascii → Prop :=
  match quant with
  | QNone => L
  | ZeroOrOne => λ w, w = [] ∨ L w
  | OneOrMore => plus L
  end.

(* the words of a sequence: one word for each token, in order *)
Definition seq_lang (token_lang : token → list ascii → Prop)
    : list token → list ascii → Prop :=
  fix go (tokens : list token) (w : list ascii) : Prop :=
    match tokens with
    | [] => w = []
    | t :: tokens' => ∃ w1 w2, w = w1 ++ w2 ∧ token_lang t w1 ∧ go tokens' w2
    end.

(* the words of a token: a single occurrence is one character accepted by
   token_matches_char or, for a group, a word of one of its alternatives *)
Fixpoint token_lang (t : token) (w : list ascii) {struct t} : Prop :=
  match t with
  | Token (Group alternatives) quant =>
      quant_lang quant
        (λ w, Exists (λ L : list ascii → Prop, L w)
                (map (seq_lang token_lang) alternatives)) w
  | Token _ quant =>
      quant_lang quant (λ w, ∃ ch, w = [ch] ∧ token_matches_char t ch = true) w
  end.

Definition tokens_lang : list token → list ascii → Prop := seq_lang token_lang.

(* e is the position after an occurrence at pos of a word of L in line *)
Definition ends_in (L : list ascii → Prop) (line : list ascii) (pos e : nat)
    : Prop :=
  ∃ w, L w ∧ w `prefix_of` drop pos line ∧ e = pos + length w.

(* the characters that do not start a literal atom, or that quantify *)
Definition special : list ascii := str "\[.(|+?".

(* a pattern made of characters that are compiled to literals at the top
   level *)
Definition plain (pattern : list ascii) : bool :=
  forallb (λ c, negb (bool_decide (c ∈ special))) pattern.

(* the pattern p|q1|...|qn *)
Fixpoint alternation (p : list ascii) (ps : list (list ascii)) : list ascii :=
  match ps with
  | [] => p
  | q :: qs => p ++ "|" :: alternation q qs
  end.


(* Reading the brackets of a pattern from left to right, from index i with
   [depth] groups open: the character after a backslash is skipped, a class
   is skipped up to the next closing bracket, ( opens a group and ) closes
   the group opened last (and is an ordinary character when none is open).
   The result is the number of groups still open at the end of the pattern,
   or the error of a class that is not closed. *)
Fixpoint open_groups (fuel : nat) (pattern : list ascii) (i depth : nat)
    : res nat :=
  match fuel with
  | 0 => OutOfFuel
  | S fuel =>
      match pattern !! i with
      | None => Ret depth
      | Some c =>
          if decide (c = "\") then open_groups fuel pattern (i + 2) depth
          else if decide (c = "[") then
            match find "]" pattern (i + 1) with
            | None => Raise UnterminatedClass
            | Some close => open_groups fuel pattern (close + 1) depth
            end
          else if decide (c = "(") then
            open_groups fuel pattern (i + 1) (S depth)
          else if decide (c = ")") then
            open_groups fuel pattern (i + 1) (pred depth)
          else open_groups fuel pattern (i + 1) depth
      end
  end.

Definition unclosed (pattern : list ascii) : res nat :=
  open_groups (S (length pattern)) pattern 0 0.

(* Induction on tokens through the alternatives of their groups. *)
Section token_induction.
Variable P : token → Prop.
Hypothesis Hatom : ∀ k quant, is_group k = false → P (Token k quant).
Hypothesis Hgroup :
  ∀ alternatives quant,
    Forall (Forall P) alternatives → P (Token (Group alternatives) quant).

Fixpoint token_nested_ind (t : token) : P t :=
  match t with
  | Token k quant =>
      match k with
      | Literal c => Hatom (Literal c) quant eq_refl
      | Digit => Hatom Digit quant eq_refl
      | Word => Hatom Word quant eq_refl
      | Class chars negative => Hatom (Class chars negative) quant eq_refl
      | Dot => Hatom Dot quant eq_refl
      | Group alternatives =>
          Hgroup alternatives quant
            ((fix alts_ind (l : list (list token)) : Forall (Forall P) l :=
                match l with
                | [] => @List.Forall_nil _ _
                | s :: l' =>
                    @List.Forall_cons _ _ s l'
                      ((fix seq_ind (s : list token) : Forall P s :=
                          match s with
                          | [] => @List.Forall_nil _ _
                          | t' :: s' =>
                              @List.Forall_cons _ _ t' s' (token_nested_ind t') (seq_ind s')
                          end) s)
                      (alts_ind l')
                end) alternatives)
      end
  end.
End token_induction.

(* ===================================================================== *)
(* Unfolding equations                                                   *)
(* ===================================================================== *)

Lemma match_from_nil fuel line pos : match_from fuel line [] pos = Ret {[pos]}.
Proof. reflexivity. Qed.

Lemma match_from_cons fuel line t tokens pos :
  match_from fuel line (t :: tokens) pos
  = match_token fuel line t (match_from fuel line tokens) pos.
Proof. reflexivity. Qed.

Lemma match_token_group_none fuel line alternatives rest pos :
  match_token fuel line (Token (Group alternatives) QNone) rest pos
  = each_alternative (map (match_from fuel line) alternatives) rest pos ∅.
Proof. reflexivity. Qed.

Lemma match_token_group_opt fuel line alternatives rest pos :
  match_token fuel line (Token (Group alternatives) ZeroOrOne) rest pos
  = (zero ← rest pos;
     each_alternative (map (match_from fuel line) alternatives) rest pos (∅ ∪ zero)).
Proof. reflexivity. Qed.

Lemma match_token_group_plus fuel line alternatives rest pos :
  match_token fuel line (Token (Group alternatives) OneOrMore) rest pos
  = (let ms := map (match_from fuel line) alternatives in
     first_positions ← first_round ms pos ∅;
     if decide (first_positions = ∅) then Ret ∅
     else
       reachable ← closure fuel ms first_positions first_positions first_positions;
       update_each rest (sorted_desc reachable) ∅).
Proof. reflexivity. Qed.

Lemma match_token_atom fuel line k quant rest pos :
  is_group k = false →
  match_token fuel line (Token k quant) rest pos
  = let t := Token k quant in
    match quant with
    | QNone => if matches_at t line pos then rest (pos + 1) else Ret ∅
    | OneOrMore =>
        if negb (matches_at t line pos) then Ret ∅
        else
          p ← scan fuel t line pos;
          update_each (λ k, rest (pos + k)) (range_down (p - pos)) ∅
    | ZeroOrOne =>
        zero ← rest pos;
        if matches_at t line pos then
          one ← rest (pos + 1); Ret (∅ ∪ zero ∪ one)
        else Ret (∅ ∪ zero)
    end.
Proof. by destruct k. Qed.

(* ===================================================================== *)
(* The loops of the matcher on sets                                      *)
(* ===================================================================== *)

Lemma elem_of_bigcup R X e : e ∈ bigcup R X ↔ ∃ p, p ∈ X ∧ e ∈ R p.
Proof.
  unfold bigcup. rewrite elem_of_union_list. split.
  - intros (Y & HY & He). apply list_elem_of_fmap in HY as (p & -> & Hp).
    exists p. split; [by apply elem_of_elements | done].
  - intros (p & Hp & He). exists (R p). split; [| done].
    apply list_elem_of_fmap. exists p. split; [done | by apply elem_of_elements].
Qed.

Lemma elem_of_step Fs p e : e ∈ step Fs p ↔ ∃ F, F ∈ Fs ∧ e ∈ F p.
Proof.
  unfold step. rewrite elem_of_union_list. split.
  - intros (Y & HY & He). apply list_elem_of_fmap in HY as (F & -> & HF). eauto.
  - intros (F & HF & He). exists (F p). split; [| done].
    apply list_elem_of_fmap. eauto.
Qed.

Lemma update_each_ret f F xs acc :
  (∀ x, x ∈ xs → f x = Ret (F x)) →
  update_each f xs acc = Ret (acc ∪ ⋃ (F <$> xs)).
Proof.
  revert acc. induction xs as [| x xs IH]; intros acc Hf; simpl.
  - f_equal. set_solver.
  - rewrite Hf by left. simpl. rewrite IH by (intros; apply Hf; by right).
    f_equal. set_solver.
Qed.

Lemma update_each_elements f F X acc :
  (∀ x, f x = Ret (F x)) →
  update_each f (elements X) acc = Ret (acc ∪ bigcup F X).
Proof. intros Hf. by apply update_each_ret. Qed.

Lemma update_each_perm f F xs X :
  (∀ x, f x = Ret (F x)) → xs ≡ₚ elements X →
  update_each f xs ∅ = Ret (bigcup F X).
Proof.
  intros Hf Hp. rewrite (update_each_ret f F) by done. f_equal.
  apply set_eq. intros e. rewrite elem_of_union, elem_of_bigcup, elem_of_union_list.
  split.
  - intros [H | (Y & HY & He)]; [set_solver |].
    apply list_elem_of_fmap in HY as (p & -> & Hp').
    exists p. split; [| done]. apply elem_of_elements. by rewrite <- Hp.
  - intros (p & Hp' & He). right. exists (F p). split; [| done].
    apply list_elem_of_fmap. exists p. split; [done |].
    rewrite Hp. by apply elem_of_elements.
Qed.

Lemma sorted_desc_perm X : sorted_desc X ≡ₚ elements X.
Proof.
  unfold sorted_desc. rewrite reverse_Permutation. apply merge_sort_Permutation.
Qed.

Lemma first_round_ret ms Fs pos acc :
  Forall2 computes ms Fs →
  first_round ms pos acc = Ret (acc ∪ step Fs pos).
Proof.
  intros H. revert acc. induction H as [| m F ms Fs Hm _ IH]; intros acc; simpl.
  - f_equal. unfold step. set_solver.
  - rewrite Hm. simpl. rewrite IH. f_equal. unfold step. set_solver.
Qed.

Lemma each_alternative_ret ms Fs rest R pos acc :
  Forall2 computes ms Fs → computes rest R →
  each_alternative ms rest pos acc = Ret (acc ∪ bigcup R (step Fs pos)).
Proof.
  intros H HR. revert acc. induction H as [| m F ms Fs Hm _ IH]; intros acc; simpl.
  - f_equal. apply set_eq. intros e.
    rewrite elem_of_union, elem_of_bigcup. unfold step. set_solver.
  - rewrite Hm. simpl. rewrite (update_each_elements _ R) by done. simpl.
    rewrite IH. f_equal. apply set_eq. intros e.
    rewrite !elem_of_union, !elem_of_bigcup. split.
    + intros [[He | (p & Hp & He)] | (p & Hp & He)]; [by left | |].
      * right. exists p. split; [| done]. apply elem_of_step. exists F.
        split; [left | done].
      * right. exists p. split; [| done].
        apply elem_of_step in Hp as (F' & HF' & Hp). apply elem_of_step.
        exists F'. split; [by right | done].
    + intros [He | (p & Hp & He)]; [by do 2 left |].
      apply elem_of_step in Hp as (F' & HF' & Hp).
      apply elem_of_cons in HF' as [-> | HF'].
      * left. right. eauto.
      * right. exists p. split; [| done]. apply elem_of_step. eauto.
Qed.

(* The effect of one pass of the closure loop over a list of end positions:
   exactly the positions not yet visited are new. *)
Lemma foldl_add_new st l :
  foldl add_new st l
  = ClosureState (st_visited st ∪ list_to_set l)
                 (st_new_frontier st ∪ (list_to_set l ∖ st_visited st))
                 (st_reachable st ∪ (list_to_set l ∖ st_visited st)).
Proof.
  revert st. induction l as [| e l IH]; intros [V N R]; simpl.
  - f_equal; set_solver.
  - rewrite IH. unfold add_new. simpl. destruct (decide (e ∈ V)); simpl.
    + f_equal; set_solver.
    + f_equal; apply set_eq; intros x; destruct (decide (x = e)); set_solver.
Qed.

Lemma expand_alternatives_ret ms Fs p st :
  Forall2 computes ms Fs →
  expand_alternatives ms p st
  = Ret (ClosureState (st_visited st ∪ step Fs p)
                      (st_new_frontier st ∪ (step Fs p ∖ st_visited st))
                      (st_reachable st ∪ (step Fs p ∖ st_visited st))).
Proof.
  intros H. revert st. induction H as [| m F ms Fs Hm _ IH]; intros [V N R]; simpl.
  - unfold step. simpl. f_equal. f_equal; set_solver.
  - rewrite Hm. simpl. rewrite IH, foldl_add_new. simpl.
    rewrite list_to_set_elements_L. unfold step. simpl.
    f_equal. f_equal; apply set_eq; intros x; destruct (decide (x ∈ F p)); set_solver.
Qed.

Lemma expand_frontier_ret ms Fs ps st :
  Forall2 computes ms Fs →
  let E := ⋃ (step Fs <$> ps) in
  expand_frontier ms ps st
  = Ret (ClosureState (st_visited st ∪ E)
                      (st_new_frontier st ∪ (E ∖ st_visited st))
                      (st_reachable st ∪ (E ∖ st_visited st))).
Proof.
  intros H. revert st. induction ps as [| p ps IH]; intros [V N R]; simpl.
  - f_equal. f_equal; set_solver.
  - rewrite (expand_alternatives_ret _ Fs) by done. simpl. rewrite IH. simpl.
    f_equal.
    f_equal; apply set_eq; intros x; destruct (decide (x ∈ step Fs p)); set_solver.
Qed.

Lemma step_in_range n Fs : Forall (in_range_of n) Fs → in_range_of n (step Fs).
Proof.
  intros H p e (F & HF & He)%elem_of_step.
  rewrite Forall_forall in H. by apply (H F).
Qed.

Section closure.
Variables (n pos0 : nat) (ms : list matcher) (Fs : list (nat → gset nat)).
Hypothesis Hms : Forall2 computes ms Fs.
Hypothesis Hrange : Forall (in_range_of n) Fs.

Lemma elem_of_span e : e ∈ span n pos0 ↔ pos0 ≤ e ≤ pos0 `max` n.
Proof. unfold span. rewrite elem_of_set_seq. lia. Qed.

Lemma size_span : size (span n pos0) ≤ S n.
Proof. unfold span. rewrite size_set_seq. lia. Qed.

Lemma step_span p : p ∈ span n pos0 → step Fs p ⊆ span n pos0.
Proof.
  intros Hp e He. apply elem_of_span in Hp. apply elem_of_span.
  apply (step_in_range n Fs Hrange) in He. lia.
Qed.

Lemma step_pos0_span : step Fs pos0 ⊆ span n pos0.
Proof. apply step_span, elem_of_span. lia. Qed.

Lemma closure_inv_done visited e :
  closure_inv n pos0 Fs ∅ visited → e ∈ visited ↔ reach (step Fs) pos0 e.
Proof.
  intros [_ Hs Hf He _]. split; [apply Hs |].
  induction 1 as [e H | p e _ IH H]; [by apply Hf |].
  apply (He p); [done | set_solver | done].
Qed.

Lemma closure_inv_next frontier visited :
  closure_inv n pos0 Fs frontier visited →
  let E := ⋃ (step Fs <$> elements frontier) in
  closure_inv n pos0 Fs (E ∖ visited) (visited ∪ E).
Proof.
  intros [Hfr Hs Hf He Hsp] E.
  assert (HE : ∀ e, e ∈ E ↔ ∃ p, p ∈ frontier ∧ e ∈ step Fs p).
  { intros e. unfold E. rewrite elem_of_union_list. split.
    - intros (Y & (p & -> & Hp)%list_elem_of_fmap & HeY).
      exists p. by rewrite <- elem_of_elements.
    - intros (p & Hp & HeY). exists (step Fs p). split; [| done].
      apply list_elem_of_fmap. exists p. by rewrite elem_of_elements. }
  split.
  - set_solver.
  - intros v [Hv | (p & Hp & Hv)%HE]%elem_of_union; [by apply Hs |].
    eapply reach_more; [apply Hs, Hfr, Hp | done].
  - set_solver.
  - intros v Hv Hnew e Hev. destruct (decide (v ∈ visited)) as [Hin | Hout].
    + destruct (decide (v ∈ frontier)) as [Hvf | Hvf].
      * apply elem_of_union. right. apply HE. eauto.
      * apply elem_of_union. left. by apply (He v).
    + exfalso. apply Hnew. set_solver.
  - intros v [Hv | (p & Hp & Hv)%HE]%elem_of_union; [by apply Hsp |].
    by apply (step_span p); [apply Hsp, Hfr |].
Qed.

(* The loop is left before its fuel is used up, and [reachable] then holds
   exactly the positions reached by one or more occurrences. *)
Lemma closure_ret fuel frontier visited :
  closure_inv n pos0 Fs frontier visited →
  size ((span n pos0) ∖ visited) + 2 ≤ fuel →
  ∃ S, closure fuel ms frontier visited visited = Ret S
       ∧ ∀ e, e ∈ S ↔ reach (step Fs) pos0 e.
Proof.
  revert frontier visited.
  induction fuel as [| fuel IH]; intros frontier visited Hinv Hfuel; [lia |].
  simpl. destruct (decide (frontier = ∅)) as [-> | Hne].
  { exists visited. split; [done |]. intros e. by apply closure_inv_done. }
  rewrite (expand_frontier_ret ms Fs) by done. simpl.
  set (E := ⋃ (step Fs <$> elements frontier)).
  pose proof (closure_inv_next _ _ Hinv) as Hnext. fold E in Hnext. simpl in Hnext.
  replace (∅ ∪ E ∖ visited) with (E ∖ visited) by set_solver.
  replace (visited ∪ E ∖ visited) with (visited ∪ E)
    by (apply set_eq; intros x; destruct (decide (x ∈ visited)); set_solver).
  destruct (decide (E ∖ visited = ∅)) as [Hempty | Hnew].
  - rewrite Hempty in *. destruct fuel as [| fuel]; [lia |]. simpl.
    exists (visited ∪ E). split; [done |]. intros e. by apply closure_inv_done.
  - apply IH; [done |].
    assert (span n pos0 ∖ (visited ∪ E) ⊂ span n pos0 ∖ visited)
      as Hlt%subset_size; [| lia].
    apply set_choose_L in Hnew as (x & Hx).
    assert (x ∈ span n pos0) by (apply (inv_span _ _ _ _ _ Hnext); set_solver).
    set_solver.
Qed.
End closure.

(* ===================================================================== *)
(* The scan of a OneOrMore token                                         *)
(* ===================================================================== *)

Lemma run_le t s : run t s ≤ length s.
Proof. induction s as [| ch s IH]; simpl; [lia |]. destruct token_matches_char; lia. Qed.

Lemma max_run_le t line pos : pos + max_run t line pos ≤ pos `max` length line.
Proof.
  unfold max_run. pose proof (run_le t (drop pos line)) as H.
  rewrite length_drop in H. lia.
Qed.

Lemma matches_at_true t line pos :
  matches_at t line pos = true ↔
  ∃ ch, line !! pos = Some ch ∧ token_matches_char t ch = true.
Proof.
  unfold matches_at. destruct (line !! pos) as [ch |]; [| naive_solver].
  split; [eauto | by intros (? & [= <-] & ?)].
Qed.

Lemma max_run_unfold t line pos :
  max_run t line pos
  = if matches_at t line pos then S (max_run t line (pos + 1)) else 0.
Proof.
  unfold max_run, matches_at. destruct (line !! pos) as [ch |] eqn:E.
  - rewrite (drop_S _ _ _ E). simpl. by rewrite Nat.add_1_r.
  - apply lookup_ge_None in E. by rewrite drop_ge.
Qed.

Lemma max_run_0 t line pos : max_run t line pos = 0 ↔ matches_at t line pos = false.
Proof. rewrite max_run_unfold. destruct matches_at; naive_solver. Qed.

Lemma scan_ret fuel t line p :
  length line - p < fuel → scan fuel t line p = Ret (p + max_run t line p).
Proof.
  revert p. induction fuel as [| fuel IH]; intros p Hf; [lia |].
  simpl. rewrite (max_run_unfold t line p).
  destruct (matches_at t line p) eqn:E.
  - apply matches_at_true in E as (ch & Hch%lookup_lt_Some & _).
    rewrite IH by lia. f_equal. lia.
  - f_equal. lia.
Qed.

(* The maximal run: every character of the run satisfies the predicate, and
   the run cannot be extended. *)
Lemma max_run_spec t line pos :
  (∀ k, k < max_run t line pos → matches_at t line (pos + k) = true)
  ∧ matches_at t line (pos + max_run t line pos) = false.
Proof.
  unfold max_run. revert pos. 
  assert (∀ s pos, drop pos line = s →
    (∀ k, k < run t s → matches_at t line (pos + k) = true)
    ∧ matches_at t line (pos + run t s) = false) as H; [| by eauto].
  induction s as [| ch s IH]; intros pos Hs; simpl.
  - split; [lia |]. rewrite Nat.add_0_r. unfold matches_at.
    destruct (line !! pos) eqn:E; [| done].
    rewrite (drop_S _ _ _ E) in Hs. done.
  - assert (line !! pos = Some ch) as Hch.
    { rewrite <- (Nat.add_0_r pos), <- lookup_drop, Hs. done. }
    assert (drop (S pos) line = s) as Hs'.
    { rewrite (drop_S _ _ _ Hch) in Hs. by injection Hs. }
    destruct (token_matches_char t ch) eqn:E.
    + destruct (IH _ Hs') as [IH1 IH2]. split.
      * intros [| k] Hk.
        -- rewrite Nat.add_0_r. unfold matches_at. by rewrite Hch.
        -- replace (pos + S k) with (S pos + k) by lia. apply IH1. lia.
      * by replace (pos + S (run t s)) with (S pos + run t s) by lia.
    + split; [lia |]. rewrite Nat.add_0_r. unfold matches_at. by rewrite Hch.
Qed.

(* ===================================================================== *)
(* What each case of match_from returns, given what its parts return     *)
(* ===================================================================== *)

Lemma reach_in_range n Fs pos e :
  Forall (in_range_of n) Fs → reach (step Fs) pos e → pos ≤ e ≤ pos `max` n.
Proof.
  intros HFs. pose proof (step_in_range n Fs HFs) as Hstep.
  induction 1 as [e H | p e _ IH H]; apply Hstep in H; lia.
Qed.

Section cases.
Variables (fuel : nat) (line : list ascii).
Hypothesis Hfuel : S (S (length line)) ≤ fuel.
Variables (rest : matcher) (R : nat → gset nat).
Hypothesis Hrest : computes rest R.

Lemma atom_none_ret k pos :
  is_group k = false →
  match_token fuel line (Token k QNone) rest pos
  = Ret (if matches_at (Token k QNone) line pos then R (pos + 1) else ∅).
Proof.
  intros Hk. rewrite match_token_atom by done. simpl.
  destruct matches_at; [apply Hrest | done].
Qed.

Lemma atom_opt_ret k pos :
  is_group k = false →
  match_token fuel line (Token k ZeroOrOne) rest pos
  = Ret (R pos ∪ if matches_at (Token k ZeroOrOne) line pos
                 then R (pos + 1) else ∅).
Proof.
  intros Hk. rewrite match_token_atom by done. simpl.
  rewrite (Hrest pos). simpl. destruct matches_at.
  - rewrite Hrest. simpl. f_equal. set_solver.
  - f_equal. set_solver.
Qed.

Lemma atom_plus_ret k pos :
  is_group k = false →
  let t := Token k OneOrMore in
  match_token fuel line t rest pos
  = Ret (⋃ ((λ j, R (pos + j)) <$> range_down (max_run t line pos))).
Proof.
  intros Hk t. unfold t at 1. rewrite match_token_atom by done. simpl. fold t.
  destruct (matches_at t line pos) eqn:E; simpl.
  - rewrite scan_ret by lia. simpl.
    replace (pos + max_run t line pos - pos) with (max_run t line pos) by lia.
    rewrite (update_each_ret _ (λ j, R (pos + j))) by (intros; apply Hrest).
    f_equal. set_solver.
  - apply max_run_0 in E. by rewrite E.
Qed.

Variables (alternatives : list (list token)) (Fs : list (nat → gset nat)).
Hypothesis Halts : Forall2 computes (map (match_from fuel line) alternatives) Fs.
Hypothesis Hrange : Forall (in_range_of (length line)) Fs.

Lemma group_none_ret pos :
  match_token fuel line (Token (Group alternatives) QNone) rest pos
  = Ret (bigcup R (step Fs pos)).
Proof.
  rewrite match_token_group_none.
  rewrite (each_alternative_ret _ Fs _ R) by done. f_equal. set_solver.
Qed.

Lemma group_opt_ret pos :
  match_token fuel line (Token (Group alternatives) ZeroOrOne) rest pos
  = Ret (R pos ∪ bigcup R (step Fs pos)).
Proof.
  rewrite match_token_group_opt. rewrite Hrest. simpl.
  rewrite (each_alternative_ret _ Fs _ R) by done. f_equal. set_solver.
Qed.

Lemma group_plus_ret pos :
  ∃ reachable,
    (∀ p, p ∈ reachable ↔ reach (step Fs) pos p)
    ∧ match_token fuel line (Token (Group alternatives) OneOrMore) rest pos
      = Ret (bigcup R reachable).
Proof.
  rewrite match_token_group_plus. simpl.
  rewrite (first_round_ret _ Fs) by done. simpl.
  replace (∅ ∪ step Fs pos) with (step Fs pos) by set_solver.
  destruct (decide (step Fs pos = ∅)) as [Hempty | Hne].
  - exists ∅. split.
    + intros p. split; [set_solver |].
      intros Hr. exfalso. induction Hr; set_solver.
    + by f_equal.
  - pose proof (step_pos0_span (length line) pos Fs Hrange) as Hsub.
    destruct (closure_ret (length line) pos _ Fs Halts Hrange fuel
                (step Fs pos) (step Fs pos)) as (S & -> & HS).
    + split; [done | | done | set_solver | done].
      intros v Hv. by apply reach_once.
    + pose proof (size_span (length line) pos) as Hsz.
      apply set_choose_L in Hne as (x & Hx).
      assert (span (length line) pos ∖ step Fs pos ⊂ span (length line) pos)
        as Hlt%subset_size; [set_solver | lia].
    + exists S. split; [done |]. simpl.
      by apply update_each_perm; [| apply sorted_desc_perm].
Qed.
End cases.

(* ===================================================================== *)
(* match_from always returns: the sets it returns                        *)
(* ===================================================================== *)

Section total.
Variable line : list ascii.
Let n := length line.

Lemma total_computes M :
  total line M →
  let F := λ pos, ends_of (M (S (S n)) pos) in
  (∀ fuel, S (S n) ≤ fuel → computes (M fuel) F) ∧ in_range_of n F.
Proof.
  intros HM F. split.
  - intros fuel Hf pos. destruct (HM pos) as (ends & HS & _).
    unfold F. rewrite (HS (S (S n))) by lia.
    simpl. by apply HS.
  - intros pos e. destruct (HM pos) as (ends & HS & Hr).
    unfold F. rewrite (HS (S (S n))) by lia. apply Hr.
Qed.

Lemma seq_total (P := λ t, ∀ Rest, total line Rest →
                            total line (λ fuel, match_token fuel line t (Rest fuel)))
    (s : list token) :
  Forall P s → total line (λ fuel, match_from fuel line s).
Proof.
  induction 1 as [| t s Ht _ IH].
  - intros pos. exists {[pos]}. split; [done |]. intros e ->%elem_of_singleton. lia.
  - apply (Ht _ IH).
Qed.

Lemma alts_total (P := λ t, ∀ Rest, total line Rest →
                             total line (λ fuel, match_token fuel line t (Rest fuel)))
    (alternatives : list (list token)) :
  Forall (Forall P) alternatives →
  let Fs := map (match_set line) alternatives in
  (∀ fuel, S (S n) ≤ fuel →
     Forall2 computes (map (match_from fuel line) alternatives) Fs)
  ∧ Forall (in_range_of n) Fs.
Proof.
  induction 1 as [| alt alts Halt _ [IH1 IH2]]; simpl.
  - split; [by constructor | by constructor].
  - destruct (total_computes _ (seq_total alt Halt)) as [Hc Hr]. split.
    + intros fuel Hf. constructor; [by apply Hc | by apply IH1].
    + constructor; [apply Hr | apply IH2].
Qed.

Lemma token_total t Rest :
  total line Rest → total line (λ fuel, match_token fuel line t (Rest fuel)).
Proof.
  revert Rest. induction t as [k quant Hk | alternatives quant IH]
    using token_nested_ind; intros Rest HRest pos;
    destruct (total_computes _ HRest) as [Hc Hr];
    set (R := λ pos, ends_of (Rest (S (S n)) pos)) in *.
  - destruct quant.
    + eexists. split.
      { intros fuel Hf. by apply (atom_none_ret fuel line _ R (Hc _ Hf)). }
      intros e. destruct (matches_at _ line pos) eqn:E; [| set_solver].
      apply matches_at_true in E as (ch & Hch%lookup_lt_Some & _).
      intros He%Hr. fold n in Hch. lia.
    + eexists. split.
      { intros fuel Hf. by apply (atom_plus_ret fuel line Hf _ R (Hc _ Hf)). }
      intros e (Y & (j & -> & Hj)%list_elem_of_fmap & He)%elem_of_union_list.
      apply Hr in He. unfold range_down in Hj.
      apply elem_of_reverse, elem_of_seq in Hj.
      pose proof (max_run_le (Token k OneOrMore) line pos). fold n in H. lia.
    + eexists. split.
      { intros fuel Hf. by apply (atom_opt_ret fuel line Hf _ R (Hc _ Hf)). }
      intros e [He%Hr | He]%elem_of_union; [lia |].
      destruct (matches_at _ line pos) eqn:E; [| set_solver].
      apply matches_at_true in E as (ch & Hch%lookup_lt_Some & _).
      apply Hr in He. fold n in Hch. lia.
  - destruct (alts_total alternatives IH) as [Hms HFs].
    set (Fs := map (match_set line) alternatives) in *.
    pose proof (step_in_range n Fs HFs) as Hstep.
    destruct quant.
    + eexists. split.
      { intros fuel Hf.
        apply (group_none_ret fuel line Hf _ R (Hc _ Hf) _ Fs (Hms _ Hf) HFs). }
      intros e (p & Hp%Hstep & He%Hr)%elem_of_bigcup. lia.
    + destruct (group_plus_ret (S (S n)) line (le_n _) _ R (Hc _ (le_n _))
                  alternatives Fs (Hms _ (le_n _)) HFs pos) as (S0 & HS0 & _).
      exists (bigcup R S0). split.
      { intros fuel Hf.
        destruct (group_plus_ret fuel line Hf _ R (Hc _ Hf)
                    alternatives Fs (Hms _ Hf) HFs pos) as (S1 & HS1 & ->).
        do 2 f_equal. apply set_eq. intros p. by rewrite HS0, HS1. }
      intros e (p & Hp%HS0 & He%Hr)%elem_of_bigcup.
      apply (reach_in_range n) in Hp; [lia | done].
    + eexists. split.
      { intros fuel Hf.
        apply (group_opt_ret fuel line Hf _ R (Hc _ Hf) _ Fs (Hms _ Hf) HFs). }
      intros e [He%Hr | (p & Hp%Hstep & He%Hr)%elem_of_bigcup]%elem_of_union; lia.
Qed.

Lemma match_from_total tokens : total line (λ fuel, match_from fuel line tokens).
Proof.
  apply seq_total, Forall_forall. intros t _ Rest. apply token_total.
Qed.
End total.

(* match_from returns, and what it returns is match_set. *)
Lemma match_from_ret fuel line tokens pos :
  S (S (length line)) ≤ fuel →
  match_from fuel line tokens pos = Ret (match_set line tokens pos).
Proof.
  intros Hf.
  destruct (total_computes line _ (match_from_total line tokens)) as [Hc _].
  by apply Hc.
Qed.

Lemma match_set_range line tokens pos e :
  e ∈ match_set line tokens pos → pos ≤ e ≤ pos `max` length line.
Proof.
  destruct (total_computes line _ (match_from_total line tokens)) as [_ Hr].
  apply Hr.
Qed.

(* ===================================================================== *)
(* The equations of match_set                                            *)
(* ===================================================================== *)

Lemma rest_computes fuel line tokens :
  S (S (length line)) ≤ fuel →
  computes (match_from fuel line tokens) (match_set line tokens).
Proof. intros Hf pos. by apply match_from_ret. Qed.

Lemma alts_computes fuel line alternatives :
  S (S (length line)) ≤ fuel →
  Forall2 computes (map (match_from fuel line) alternatives)
          (map (match_set line) alternatives).
Proof.
  intros Hf. induction alternatives as [| alt alts IH]; simpl; constructor;
    [by apply rest_computes | done].
Qed.

Lemma alts_in_range line alternatives :
  Forall (in_range_of (length line)) (map (match_set line) alternatives).
Proof.
  induction alternatives as [| alt alts IH]; simpl; constructor; [| done].
  intros p e. apply match_set_range.
Qed.

Lemma step_one_occurrence line alternatives p :
  step (map (match_set line) alternatives) p = one_occurrence line alternatives p.
Proof.
  unfold step, one_occurrence. f_equal.
  induction alternatives as [| alt alts IH]; simpl; [done | by f_equal].
Qed.

Lemma elem_of_one_occurrence line alternatives p e :
  e ∈ one_occurrence line alternatives p
  ↔ ∃ alt, alt ∈ alternatives ∧ e ∈ match_set line alt p.
Proof.
  unfold one_occurrence. rewrite elem_of_union_list. split.
  - intros (Y & (alt & -> & Halt)%list_elem_of_fmap & He). eauto.
  - intros (alt & Halt & He). exists (match_set line alt p). split; [| done].
    apply list_elem_of_fmap. eauto.
Qed.

Lemma match_set_nil line pos : match_set line [] pos = {[pos]}.
Proof. reflexivity. Qed.

Lemma match_set_cons line t tokens pos :
  match_set line (t :: tokens) pos
  = ends_of (match_token (S (S (length line))) line t
               (match_from (S (S (length line))) line tokens) pos).
Proof. reflexivity. Qed.

Lemma match_set_atom_none line k tokens pos :
  is_group k = false →
  match_set line (Token k QNone :: tokens) pos
  = if matches_at (Token k QNone) line pos
    then match_set line tokens (pos + 1) else ∅.
Proof.
  intros Hk. rewrite match_set_cons.
  by rewrite (atom_none_ret _ _ _ _ (rest_computes _ _ _ (le_n _))).
Qed.

Lemma match_set_atom_opt line k tokens pos :
  is_group k = false →
  match_set line (Token k ZeroOrOne :: tokens) pos
  = match_set line tokens pos
    ∪ if matches_at (Token k ZeroOrOne) line pos
      then match_set line tokens (pos + 1) else ∅.
Proof.
  intros Hk. rewrite match_set_cons.
  by rewrite (atom_opt_ret _ _ (le_n _) _ _ (rest_computes _ _ _ (le_n _))).
Qed.

Lemma match_set_atom_plus line k tokens pos :
  is_group k = false →
  let t := Token k OneOrMore in
  match_set line (t :: tokens) pos
  = ⋃ ((λ j, match_set line tokens (pos + j)) <$> range_down (max_run t line pos)).
Proof.
  intros Hk t. rewrite match_set_cons. unfold t at 1.
  by rewrite (atom_plus_ret _ _ (le_n _) _ _ (rest_computes _ _ _ (le_n _))).
Qed.

Lemma match_set_group_none line alternatives tokens pos :
  match_set line (Token (Group alternatives) QNone :: tokens) pos
  = bigcup (match_set line tokens) (one_occurrence line alternatives pos).
Proof.
  rewrite match_set_cons.
  rewrite (group_none_ret _ _ (le_n _) _ _ (rest_computes _ _ _ (le_n _))
             _ _ (alts_computes _ _ _ (le_n _)) (alts_in_range _ _)).
  simpl. by rewrite step_one_occurrence.
Qed.

Lemma match_set_group_opt line alternatives tokens pos :
  match_set line (Token (Group alternatives) ZeroOrOne :: tokens) pos
  = match_set line tokens pos
    ∪ bigcup (match_set line tokens) (one_occurrence line alternatives pos).
Proof.
  rewrite match_set_cons.
  rewrite (group_opt_ret _ _ (le_n _) _ _ (rest_computes _ _ _ (le_n _))
             _ _ (alts_computes _ _ _ (le_n _)) (alts_in_range _ _)).
  simpl. by rewrite step_one_occurrence.
Qed.

Lemma reach_ext (f g : nat → gset nat) pos e :
  (∀ p, f p = g p) → reach f pos e → reach g pos e.
Proof.
  intros Hfg. induction 1 as [e H | p e _ IH H]; rewrite Hfg in H.
  - by apply reach_once.
  - by eapply reach_more.
Qed.

Lemma match_set_group_plus line alternatives tokens pos :
  ∃ reachable,
    (∀ p, p ∈ reachable ↔ reach (one_occurrence line alternatives) pos p)
    ∧ match_set line (Token (Group alternatives) OneOrMore :: tokens) pos
      = bigcup (match_set line tokens) reachable.
Proof.
  destruct (group_plus_ret _ _ (le_n _) _ _ (rest_computes _ line tokens (le_n _))
              _ _ (alts_computes _ line alternatives (le_n _)) (alts_in_range _ _) pos)
    as (reachable & Hreach & Heq).
  exists reachable. split.
  - intros p. rewrite Hreach.
    split; apply reach_ext; intros q; by rewrite step_one_occurrence.
  - rewrite match_set_cons. by rewrite Heq.
Qed.

(* The reachable positions are the least set that contains the positions
   after one occurrence and is closed under one more occurrence. *)
Lemma reach_least (f : nat → gset nat) pos (X : gset nat) :
  (∀ p, p ∈ X ↔ reach f pos p) →
  (f pos ⊆ X ∧ ∀ p, p ∈ X → f p ⊆ X)
  ∧ ∀ Y : gset nat, f pos ⊆ Y → (∀ p, p ∈ Y → f p ⊆ Y) → X ⊆ Y.
Proof.
  intros HX. split; [split |].
  - intros e He. apply HX. by apply reach_once.
  - intros p Hp e He. apply HX. eapply reach_more; [by apply HX | done].
  - intros Y H1 H2 e He%HX. induction He as [e H | p e _ IH H].
    + by apply H1.
    + by apply (H2 p).
Qed.

(* ===================================================================== *)
(* The top level                                                         *)
(* ===================================================================== *)

Lemma any_res_ret {A} (f : A → res bool) (g : A → bool) xs :
  (∀ x, x ∈ xs → f x = Ret (g x)) → any_res f xs = Ret (existsb g xs).
Proof.
  induction xs as [| x xs IH]; intros Hf; simpl; [done |].
  rewrite Hf by left. simpl. destruct (g x); [done |].
  apply IH. intros y Hy. apply Hf. by right.
Qed.

Lemma match_in_line_ret fuel tokens a_start a_end line :
  S (S (length line)) ≤ fuel →
  match_in_line fuel tokens a_start a_end line
  = Ret (line_matches tokens a_start a_end line).
Proof.
  intros Hf. unfold match_in_line, line_matches.
  destruct a_start, a_end; simpl.
  - by rewrite match_from_ret.
  - rewrite match_from_ret by done. simpl. f_equal.
    apply bool_decide_ext.
    pose proof (size_non_empty_iff (match_set line tokens 0)) as H.
    unfold_leibniz. rewrite <- H. lia.
  - apply any_res_ret. intros start _. by rewrite match_from_ret.
  - apply any_res_ret. intros start _. by rewrite match_from_ret.
Qed.

Lemma splitlines_from_length n s cur line :
  length s ≤ n →
  line ∈ splitlines_from cur s → length line ≤ length cur + length s.
Proof.
  revert s cur. induction n as [| n IH]; intros [| ch s] cur Hn; simpl in *;
    try lia.
  - destruct cur; [by intros ?%elem_of_nil |].
    intros ->%list_elem_of_singleton. rewrite length_reverse. simpl. lia.
  - destruct cur; [by intros ?%elem_of_nil |].
    intros ->%list_elem_of_singleton. rewrite length_reverse. simpl. lia.
  - destruct (is_linebreak ch).
    + intros [-> | Hin]%elem_of_cons; [rewrite length_reverse; lia |].
      destruct s as [| ch' s'].
      * apply (IH [] []) in Hin; simpl in *; lia.
      * destruct (decide (ch = CR ∧ ch' = LF)).
        -- apply (IH s' []) in Hin; simpl in *; lia.
        -- apply (IH (ch' :: s') []) in Hin; simpl in *; lia.
    + intros Hin. apply (IH s (ch :: cur)) in Hin; simpl in *; lia.
Qed.

Lemma splitlines_length input line :
  line ∈ splitlines input → length line ≤ length input.
Proof. intros H. by apply (splitlines_from_length (length input)) in H. Qed.

Lemma lines_of_length input line :
  line ∈ lines_of input → length line ≤ length input.
Proof.
  unfold lines_of. destruct (_ && _).
  - intros ->%list_elem_of_singleton. simpl. lia.
  - apply splitlines_length.
Qed.

Lemma splitlines_from_single cur s :
  single_line s = true →
  splitlines_from cur s
  = match reverse cur ++ s with [] => [] | line => [line] end.
Proof.
  revert cur. induction s as [| ch s IH]; intros cur Hs; simpl in *.
  - rewrite app_nil_r. destruct cur as [| c cur]; [done |].
    rewrite reverse_cons. by destruct (reverse cur).
  - apply andb_true_iff in Hs as [Hch Hs]. apply negb_true_iff in Hch.
    rewrite Hch, IH by done. rewrite reverse_cons, <- app_assoc. done.
Qed.

Lemma lines_of_single line : single_line line = true → lines_of line = [line].
Proof.
  intros Hs. unfold lines_of, splitlines.
  rewrite splitlines_from_single by done. simpl. by destruct line.
Qed.

Lemma splitlines_single line :
  single_line line = true →
  splitlines line = match line with [] => [] | _ => [line] end.
Proof.
  intros Hs. unfold splitlines. rewrite splitlines_from_single by done.
  by destruct line.
Qed.

Lemma match_pattern_unfold fuel input_line pattern :
  match_pattern fuel input_line pattern
  = (tokens ← parse_pattern (strip_anchors pattern);
     let a_start := anchor_start pattern in
     let a_end := anchor_end pattern in
     if decide (length tokens = 0) then
       Ret (match_result tokens a_start a_end input_line)
     else
       found ← any_res (match_in_line fuel tokens a_start a_end)
                 (lines_of input_line);
       if found : bool then Ret true
       else if negb a_start && negb a_end then
         match_in_line fuel tokens false false input_line
       else Ret false).
Proof.
  unfold match_pattern, strip_anchors, anchor_end, strip_start, anchor_start.
  destruct (parse_pattern _) as [tokens | |]; simpl; [| done | done].
  unfold match_result.
  destruct (decide (length tokens = 0)); [by destruct (_ || _) | done].
Qed.

(* match_pattern returns a boolean whenever the pattern compiles. *)
Lemma match_pattern_ret fuel input_line pattern tokens :
  parse_pattern (strip_anchors pattern) = Ret tokens →
  S (S (length input_line)) ≤ fuel →
  match_pattern fuel input_line pattern
  = Ret (match_result tokens (anchor_start pattern) (anchor_end pattern)
           input_line).
Proof.
  intros Hp Hf. rewrite match_pattern_unfold, Hp. simpl.
  destruct (decide (length tokens = 0)) as [Hz | Hnz]; [done |].
  rewrite (any_res_ret _ (line_matches tokens (anchor_start pattern)
                            (anchor_end pattern))).
  2:{ intros line Hl%lines_of_length. apply match_in_line_ret. lia. }
  simpl. unfold match_result. destruct (decide _) as [| _]; [done |].
  destruct (existsb _ _); simpl; [done |].
  destruct (negb _ && negb _); simpl; [| done].
  by apply match_in_line_ret.
Qed.

(* ===================================================================== *)
(* The matcher: OneOrMore, termination                                   *)
(* ===================================================================== *)

(** C1.  For a non-group token t with the OneOrMore quantifier, followed by
    the sequence [tokens]: maxK = max_run t line pos is the maximal run
    length of the predicate of t from pos; match_from returns the empty set
    when maxK = 0 and otherwise the union, for k = maxK down to 1, of the sets
    that matching [tokens] from pos + k returns.  So matches("aaa", "a+") is
    true, matches("", "a+") is false and matches("aaab", "a+ab") is true: the
    run of three a's is tried first and fails, the run of two succeeds. *)
Theorem one_or_more_token_spec :
  (∀ line k tokens pos fuel,
     is_group k = false → S (S (length line)) ≤ fuel →
     let t := Token k OneOrMore in
     let maxK := max_run t line pos in
     ((∀ j, j < maxK → matches_at t line (pos + j) = true)
      ∧ matches_at t line (pos + maxK) = false)
     ∧ (∀ j, match_from fuel line tokens (pos + j)
             = Ret (match_set line tokens (pos + j)))
     ∧ match_from fuel line (t :: tokens) pos
       = Ret (if decide (maxK = 0) then ∅
              else ⋃ ((λ j, match_set line tokens (pos + j))
                        <$> range_down maxK)))
  ∧ range_down 3 = [3; 2; 1]
  ∧ matches (str "aaa") (str "a+") = Ret true
  ∧ matches (str "") (str "a+") = Ret false
  ∧ matches (str "aaab") (str "a+ab") = Ret true
  ∧ match_set (str "aaab") (str "ab" ≫= λ c, [Token (Literal c) QNone]) 3 = ∅
  ∧ match_set (str "aaab") (str "ab" ≫= λ c, [Token (Literal c) QNone]) 2 = {[4]}.
Proof.
  split; [| repeat split; by vm_compute].
  intros line k tokens pos fuel Hk Hf t maxK. split; [apply max_run_spec |].
  split; [intros j; by apply match_from_ret |].
  rewrite match_from_ret by done. f_equal.
  unfold t. rewrite match_set_atom_plus by done. fold t maxK.
  destruct (decide (maxK = 0)) as [-> | _]; done.
Qed.

Lemma one_or_more_token_spec_witness :
  let line := str "aaab" in
  let tokens := str "ab" ≫= λ c, [Token (Literal c) QNone] in
  let t := Token (Literal "a") OneOrMore in
  match_from 6 line (t :: tokens) 0
  = Ret (if decide (max_run t line 0 = 0) then ∅
         else ⋃ ((λ j, match_set line tokens (0 + j))
                   <$> range_down (max_run t line 0))).
Proof.
  intros line tokens t.
  apply (proj1 one_or_more_token_spec line (Literal "a") tokens 0 6);
    [reflexivity | simpl; lia].
Defined.

(** C2.  For a Group token with the OneOrMore quantifier: with
    first_positions the union over the alternatives of the end positions of
    one occurrence at pos, match_from returns the empty set when
    first_positions is empty; otherwise it returns the union, over the
    positions of [reachable], of what matching the rest of the outer sequence
    returns there, where [reachable] is the least set that contains
    first_positions and is closed under one more occurrence of any
    alternative.  So matches("catcatcat", "^(cat)+$") and
    matches("catdogcat", "(cat|dog)+$") are true. *)
Theorem one_or_more_group_spec :
  (∀ line alternatives tokens pos fuel,
     S (S (length line)) ≤ fuel →
     let first_positions := one_occurrence line alternatives pos in
     (∀ alt p, alt ∈ alternatives →
               match_from fuel line alt p = Ret (match_set line alt p))
     ∧ ∃ reachable : gset nat,
         ((first_positions ⊆ reachable
           ∧ ∀ p, p ∈ reachable → one_occurrence line alternatives p ⊆ reachable)
          ∧ ∀ Y : gset nat,
              first_positions ⊆ Y →
              (∀ p, p ∈ Y → one_occurrence line alternatives p ⊆ Y) →
              reachable ⊆ Y)
         ∧ match_from fuel line
             (Token (Group alternatives) OneOrMore :: tokens) pos
           = Ret (if decide (first_positions = ∅) then ∅
                  else bigcup (match_set line tokens) reachable))
  ∧ matches (str "catcatcat") (str "^(cat)+$") = Ret true
  ∧ matches (str "catdogcat") (str "(cat|dog)+$") = Ret true.
Proof.
  split; [| split; by vm_compute].
  intros line alternatives tokens pos fuel Hf first_positions.
  split; [intros alt p _; by apply match_from_ret |].
  destruct (match_set_group_plus line alternatives tokens pos)
    as (reachable & Hreach & Heq).
  exists reachable. split; [by apply reach_least |].
  rewrite match_from_ret, Heq by done. f_equal.
  destruct (decide (first_positions = ∅)) as [Hempty | _]; [| done].
  apply set_eq. intros e. rewrite elem_of_bigcup. split; [| set_solver].
  intros (p & Hp%Hreach & _). exfalso.
  induction Hp; unfold first_positions in Hempty; set_solver.
Qed.

Lemma one_or_more_group_spec_witness :
  let line := str "catcat" in
  let alternatives := [str "cat" ≫= λ c, [Token (Literal c) QNone]] in
  ∃ reachable : gset nat,
    match_from 8 line [Token (Group alternatives) OneOrMore] 0
    = Ret (if decide (one_occurrence line alternatives 0 = ∅) then ∅
           else bigcup (match_set line []) reachable).
Proof.
  intros line alternatives.
  destruct (proj1 one_or_more_group_spec line alternatives [] 0 8
              ltac:(simpl; lia)) as (_ & reachable & _ & H).
  by exists reachable.
Defined.

(** C9.  match_from terminates for every token sequence, line and starting
    position: with length(line) + 2 evaluations of the head of each while
    loop it returns a set, the same for every larger bound, and the end
    positions lie between pos and the end of the line (so the closure loop,
    which only adds positions not yet visited, runs out of new positions).
    This includes a OneOrMore group with an alternative that matches the
    empty string. *)
Theorem match_from_terminates :
  (∀ line tokens pos,
     ∃ ends : gset nat,
       (∀ fuel, S (S (length line)) ≤ fuel →
                match_from fuel line tokens pos = Ret ends)
       ∧ ∀ e, e ∈ ends → pos ≤ e ≤ pos `max` length line)
  ∧ (∀ st e, e ∈ st_visited st → add_new st e = st)
  ∧ match_from 3 (str "x")
      [Token (Group [[]; [Token (Literal "a") QNone]]) OneOrMore] 0
    = Ret {[0]}.
Proof.
  split; [| split].
  - intros line tokens pos. exists (match_set line tokens pos). split.
    + intros fuel Hf. by apply match_from_ret.
    + intros e. apply match_set_range.
  - intros st e He. unfold add_new. by destruct (decide _).
  - by vm_compute.
Qed.

Lemma match_from_terminates_witness :
  ∃ ends : gset nat,
    match_from 5 (str "xa")
      [Token (Group [[]; [Token (Literal "a") QNone]]) OneOrMore;
       Token (Literal "x") QNone] 0 = Ret ends.
Proof.
  destruct (proj1 match_from_terminates (str "xa")
              [Token (Group [[]; [Token (Literal "a") QNone]]) OneOrMore;
               Token (Literal "x") QNone] 0) as (ends & H & _).
  exists ends. apply H. simpl. lia.
Defined.

(* ===================================================================== *)
(* Anchors and lines                                                     *)
(* ===================================================================== *)

Lemma line_matches_unanchored_idem tokens a_start a_end line :
  line_matches tokens a_start a_end line
  || (negb a_start && negb a_end && line_matches tokens false false line)
  = line_matches tokens a_start a_end line.
Proof. destruct a_start, a_end; simpl; try apply orb_false_r. apply orb_diag. Qed.

Lemma match_result_single tokens a_start a_end line :
  single_line line = true → tokens ≠ [] →
  match_result tokens a_start a_end line = line_matches tokens a_start a_end line.
Proof.
  intros Hs Ht. unfold match_result.
  destruct (decide (length tokens = 0)) as [Hz | _].
  { by destruct tokens. }
  rewrite lines_of_single by done. simpl. rewrite orb_false_r.
  apply line_matches_unanchored_idem.
Qed.

Lemma match_result_empty a_start a_end line :
  single_line line = true →
  match_result [] a_start a_end line
  = if a_start || a_end then bool_decide (line = []) else true.
Proof.
  intros Hs. unfold match_result. simpl. rewrite splitlines_single by done.
  destruct (a_start || a_end); [| done]. by destruct line.
Qed.

(** C3 (as stated, it fails).  The pattern "^" has only the start anchor and
    compiles to the empty sequence; on the single line "abc" match_from from
    position 0 returns the non-empty set {0}, so the driving logic of the
    claim gives true, but match_pattern returns false: an empty compiled
    pattern with an anchor only matches the empty input. *)
Lemma anchored_driver_counterexample :
  single_line (str "abc") = true
  ∧ anchor_start (str "^") = true
  ∧ anchor_end (str "^") = false
  ∧ parse_pattern (strip_anchors (str "^")) = Ret []
  ∧ match_from 5 (str "abc") [] 0 = Ret {[0]}
  ∧ line_matches [] true false (str "abc") = true
  ∧ matches (str "abc") (str "^") = Ret false.
Proof. repeat split; by vm_compute. Qed.

(** C3 (amended).  For every single-line input of length n and every pattern
    that compiles to a non-empty sequence: with both anchors, matches
    succeeds iff the set match_from returns from position 0 contains n; with
    the start anchor only, iff that set is non-empty; with the end anchor
    only, iff for some start in 0..n the set contains n; with no anchor, iff
    for some start in 0..n the set is non-empty.  A pattern that compiles to
    the empty sequence matches every line when it has no anchor and only the
    empty line when it has one.  In particular matches("abc", "^abc$") is
    true, matches("xabc", "^abc$") and matches("abcx", "^abc$") are false. *)
Theorem anchored_driver_spec :
  (∀ line pattern tokens,
     single_line line = true →
     parse_pattern (strip_anchors pattern) = Ret tokens →
     tokens ≠ [] →
     (∀ start, match_from (S (S (length line))) line tokens start
               = Ret (match_set line tokens start))
     ∧ matches line pattern
       = Ret (line_matches tokens (anchor_start pattern) (anchor_end pattern)
                line))
  ∧ (∀ line pattern,
       single_line line = true →
       parse_pattern (strip_anchors pattern) = Ret [] →
       matches line pattern
       = Ret (if anchor_start pattern || anchor_end pattern
              then bool_decide (line = []) else true))
  ∧ matches (str "abc") (str "^abc$") = Ret true
  ∧ matches (str "xabc") (str "^abc$") = Ret false
  ∧ matches (str "abcx") (str "^abc$") = Ret false.
Proof.
  split; [| split; [| repeat split; by vm_compute]].
  - intros line pattern tokens Hs Hp Ht. split.
    + intros start. by apply match_from_ret.
    + unfold matches. rewrite (match_pattern_ret _ _ _ tokens) by done.
      by rewrite match_result_single.
  - intros line pattern Hs Hp. unfold matches.
    rewrite (match_pattern_ret _ _ _ []) by done.
    by rewrite match_result_empty.
Qed.

Lemma anchored_driver_spec_witness :
  matches (str "abc") (str "^abc$")
  = Ret (line_matches (str "abc" ≫= λ c, [Token (Literal c) QNone])
           (anchor_start (str "^abc$")) (anchor_end (str "^abc$")) (str "abc")).
Proof.
  apply (proj1 anchored_driver_spec (str "abc") (str "^abc$")
           (str "abc" ≫= λ c, [Token (Literal c) QNone]));
    [reflexivity | reflexivity | discriminate].
Defined.

(** C5 (as stated, it fails).  The input "a\nb" has the two lines "a" and
    "b"; the pattern "a[^c]b" matches neither of them, so the OR of the
    per-line results is false, but match_pattern returns true: a pattern
    without anchors is also matched against the whole input, where the
    negated class matches the newline. *)
Lemma per_line_or_counterexample :
  splitlines ["a"; LF; "b"] = [str "a"; str "b"]
  ∧ (tokens ← parse_pattern (strip_anchors (str "a[^c]b"));
     Ret (existsb (line_matches tokens (anchor_start (str "a[^c]b"))
                     (anchor_end (str "a[^c]b")))
            (splitlines ["a"; LF; "b"])))
    = Ret false
  ∧ matches ["a"; LF; "b"] (str "a[^c]b") = Ret true.
Proof. repeat split; by vm_compute. Qed.

(** C5 (amended).  For every input and every pattern that compiles to a
    non-empty sequence, each line is tested independently with the same
    compiled pattern, and matches is true iff some line matches or, when the
    pattern has no anchor, the whole input taken as one line matches (such a
    match can span a line break); so with an anchor the result is exactly the
    OR of the per-line results.  The lines are those of splitlines whenever
    the input is not empty.  A pattern that compiles to the empty sequence
    matches everything when it has no anchor and, with an anchor, matches
    iff some line is empty or the input is empty. *)
Theorem per_line_or_spec :
  ∀ input_line pattern tokens,
    parse_pattern (strip_anchors pattern) = Ret tokens →
    let a_start := anchor_start pattern in
    let a_end := anchor_end pattern in
    (tokens ≠ [] →
       (∀ line, line ∈ lines_of input_line →
                match_in_line (S (S (length input_line))) tokens a_start a_end line
                = Ret (line_matches tokens a_start a_end line))
       ∧ matches input_line pattern
         = Ret (existsb (line_matches tokens a_start a_end) (lines_of input_line)
                || (negb a_start && negb a_end
                    && line_matches tokens false false input_line))
       ∧ (a_start || a_end = true →
            matches input_line pattern
            = Ret (existsb (line_matches tokens a_start a_end)
                     (lines_of input_line)))
       ∧ (input_line ≠ [] → lines_of input_line = splitlines input_line))
    ∧ (tokens = [] →
         matches input_line pattern
         = Ret (if a_start || a_end
                then existsb (λ line, bool_decide (line = []))
                       (splitlines input_line)
                     || bool_decide (input_line = [])
                else true)).
Proof.
  intros input_line pattern tokens Hp a_start a_end.
  assert (matches input_line pattern
          = Ret (match_result tokens a_start a_end input_line)) as Hm.
  { unfold matches. by rewrite (match_pattern_ret _ _ _ tokens). }
  split.
  - intros Ht.
    assert (match_result tokens a_start a_end input_line
            = existsb (line_matches tokens a_start a_end) (lines_of input_line)
              || (negb a_start && negb a_end
                  && line_matches tokens false false input_line)) as Hr.
    { unfold match_result. destruct (decide _) as [Hz | _]; [| done].
      by destruct tokens. }
    split; [| split; [| split]].
    + intros line Hl%lines_of_length. apply match_in_line_ret. lia.
    + by rewrite Hm, Hr.
    + intros Ha. rewrite Hm, Hr. f_equal.
      destruct a_start, a_end; simpl in *; try apply orb_false_r. done.
    + intros Hne. unfold lines_of.
      rewrite (bool_decide_eq_false_2 (input_line = [])) by done.
      by rewrite andb_false_r.
  - intros ->. rewrite Hm. unfold match_result. simpl.
    destruct (a_start || a_end); [| done]. by rewrite andb_true_r.
Qed.

Lemma per_line_or_spec_witness :
  matches ["a"; LF; "b"] (str "^a[^c]b")
  = Ret (existsb (line_matches
                    [Token (Literal "a") QNone;
                     Token (Class (list_to_set ["c"]) true) QNone;
                     Token (Literal "b") QNone] true false)
           (lines_of ["a"; LF; "b"])).
Proof.
  refine (proj1 (proj2 (proj2 (proj1
            (per_line_or_spec ["a"; LF; "b"] (str "^a[^c]b")
               [Token (Literal "a") QNone;
                Token (Class (list_to_set ["c"]) true) QNone;
                Token (Literal "b") QNone] _) _))) _);
    [reflexivity | discriminate | reflexivity].
Defined.

(** C10.  The pattern "[^]" compiles, without error, to a negated class with
    the empty character set; this token accepts every character, the newline
    included (which Dot rejects); so matches(input, "[^]") is true for every
    non-empty input. *)
Theorem negated_empty_class_spec :
  parse_pattern (str "[^]") = Ret [Token (Class ∅ true) QNone]
  ∧ (∀ ch, token_matches_char (Token (Class ∅ true) QNone) ch = true)
  ∧ token_matches_char (Token (Class ∅ true) QNone) LF = true
  ∧ token_matches_char (Token Dot QNone) LF = false
  ∧ ∀ input_line, input_line ≠ [] → matches input_line (str "[^]") = Ret true.
Proof.
  assert (∀ ch, token_matches_char (Token (Class ∅ true) QNone) ch = true) as Hall.
  { intros ch. simpl. apply bool_decide_eq_true_2. set_solver. }
  split; [reflexivity |]. split; [done |]. split; [done |].
  split; [by vm_compute |].
  intros input_line Hne. unfold matches.
  rewrite (match_pattern_ret _ _ _ [Token (Class ∅ true) QNone])
    by (reflexivity || lia).
  f_equal. unfold match_result. simpl.
  apply orb_true_iff. right.
  unfold line_matches, starts. simpl. rewrite Nat.add_1_r. simpl.
  apply orb_true_iff. left.
  rewrite match_set_atom_none by done.
  destruct input_line as [| ch s]; [done |].
  assert (matches_at (Token (Class ∅ true) QNone) (ch :: s) 0 = true) as ->
    by apply Hall.
  rewrite match_set_nil. rewrite bool_decide_eq_true_2 by set_solver. done.
Qed.

Lemma negated_empty_class_spec_witness : matches [LF] (str "[^]") = Ret true.
Proof.
  apply (proj2 (proj2 (proj2 (proj2 negated_empty_class_spec))) [LF]).
  discriminate.
Defined.

(* ===================================================================== *)
(* The compiler                                                          *)
(* ===================================================================== *)

Lemma find_from_Some c s i j :
  find_from c s i = Some j → i ≤ j ∧ s !! (j - i) = Some c.
Proof.
  revert i. induction s as [| x s IH]; intros i; simpl; [done |].
  destruct (decide (x = c)) as [-> | _].
  - intros [= <-]. by rewrite Nat.sub_diag.
  - intros [Hle Hl]%IH. split; [lia |].
    by replace (j - i) with (S (j - S i)) by lia.
Qed.

Lemma find_from_None c s i : find_from c s i = None → c ∉ s.
Proof.
  revert i. induction s as [| x s IH]; intros i; simpl.
  - intros _. apply not_elem_of_nil.
  - destruct (decide (x = c)); [done |]. intros H%IH. rewrite not_elem_of_cons.
    split; [congruence | done].
Qed.

Lemma find_Some c pattern start j :
  find c pattern start = Some j → start ≤ j ∧ pattern !! j = Some c.
Proof.
  unfold find. intros [Hle Hl]%find_from_Some. split; [done |].
  rewrite lookup_drop in Hl. by replace (start + (j - start)) with j in Hl by lia.
Qed.

Lemma find_None c pattern start j :
  find c pattern start = None → start ≤ j → pattern !! j ≠ Some c.
Proof.
  unfold find. intros Hn%find_from_None Hle Hj. apply Hn.
  apply list_elem_of_lookup. exists (j - start).
  rewrite lookup_drop. by replace (start + (j - start)) with j by lia.
Qed.

Lemma find_None_intro c pattern start :
  (∀ j, start ≤ j → pattern !! j ≠ Some c) → find c pattern start = None.
Proof.
  intros H. destruct (find c pattern start) as [j |] eqn:E; [| done].
  apply find_Some in E as [Hle Hj]. by destruct (H j Hle).
Qed.

Lemma parse_alternatives_step fuel pattern end_char i alts seq c :
  pattern !! i = Some c → end_char ≠ Some c → c ≠ "|" →
  parse_alternatives (S fuel) pattern end_char i alts seq
  = ('(k, j) ← parse_atom
                 (λ j, parse_alternatives fuel pattern (Some ")") j [] [])
                 pattern i c;
     let '(quant, j') := parse_quant pattern j in
     parse_alternatives fuel pattern end_char j' alts (seq ++ [Token k quant])).
Proof.
  intros Hc Hec Hbar. simpl. rewrite Hc.
  destruct (decide (end_char = Some c)); [done |].
  destruct (decide (c = "|")); done.
Qed.

Lemma parse_escape_progress pattern i k j :
  i < length pattern → parse_escape pattern i = (k, j) →
  is_group k = false ∧ i < j ≤ length pattern.
Proof.
  unfold parse_escape. intros Hi.
  destruct (pattern !! (i + 1)) as [esc |] eqn:E.
  - apply lookup_lt_Some in E.
    repeat case_decide; intros [= <- <-]; (split; [done | lia]).
  - intros [= <- <-]. split; [done | lia].
Qed.

Lemma parse_class_progress pattern i k j :
  parse_class pattern i = Ret (k, j) →
  is_group k = false ∧ i < j ≤ length pattern.
Proof.
  unfold parse_class. destruct (find "]" pattern (i + 1)) as [close |] eqn:E;
    [| done].
  apply find_Some in E as [Hle Hl%lookup_lt_Some].
  simpl. destruct (startswith _ _); intros [= <- <-]; (split; [done | lia]).
Qed.

Lemma parse_quant_progress pattern j quant j' :
  parse_quant pattern j = (quant, j') →
  j ≤ j' ∧ (j ≤ length pattern → j' ≤ length pattern)
  ∧ (j' = j ∨ (j' = j + 1 ∧ (pattern !! j = Some "+" ∨ pattern !! j = Some "?"))).
Proof.
  unfold parse_quant. destruct (pattern !! j) as [c |] eqn:E.
  - apply lookup_lt_Some in E as Hlt.
    repeat case_decide; intros [= <- <-]; subst; (split; [lia |]);
      (split; [lia |]); auto.
  - intros [= <- <-]. auto.
Qed.

(* The compiler never runs out of fuel when it is given length - i + 1 units
   at index i, and the index it returns is between i and the length. *)
Lemma parse_alternatives_progress pattern fuel end_char i alts seq :
  i ≤ length pattern → length pattern - i < fuel →
  parse_alternatives fuel pattern end_char i alts seq ≠ OutOfFuel
  ∧ ∀ r j, parse_alternatives fuel pattern end_char i alts seq = Ret (r, j) →
           i ≤ j ≤ length pattern ∧ (is_Some end_char → i < j).
Proof.
  revert end_char i alts seq.
  induction fuel as [| fuel IH]; intros end_char i alts seq Hi Hf; [lia |].
  destruct (pattern !! i) as [c |] eqn:Hc.
  2:{ simpl. rewrite Hc. apply lookup_ge_None in Hc.
      destruct end_char; [done |]. split; [done |].
      intros r j [= <- <-]. split; [lia | by intros [? ?]]. }
  apply lookup_lt_Some in Hc as Hlt.
  destruct (decide (end_char = Some c)) as [Hec | Hec].
  { simpl. rewrite Hc. rewrite decide_True by done. split; [done |].
    intros r j [= <- <-]. split; lia. }
  destruct (decide (c = "|")) as [Hbar | Hbar].
  { simpl. rewrite Hc. rewrite decide_False, decide_True by done.
    destruct (IH end_char (i + 1) (alts ++ [seq]) []) as [H1 H2]; [lia | lia |].
    split; [done |]. intros r j Hr. apply H2 in Hr. split; [lia |].
    intros He. lia. }
  rewrite (parse_alternatives_step _ _ _ _ _ _ c) by done.
  assert (∃ o, parse_atom
                 (λ j, parse_alternatives fuel pattern (Some ")") j [] [])
                 pattern i c = o
               ∧ o ≠ OutOfFuel
               ∧ ∀ k j, o = Ret (k, j) → i < j ≤ length pattern)
    as (o & -> & Ho1 & Ho2).
  { eexists. split; [done |]. unfold parse_atom.
    destruct (decide (c = "\")).
    { split; [done |]. intros k j [= H].
      by apply parse_escape_progress in H as [_ ?]. }
    destruct (decide (c = "[")).
    { split; [unfold parse_class; destruct find; [by destruct (startswith _ _) | done] |].
      intros k j H. by apply parse_class_progress in H as [_ ?]. }
    destruct (decide (c = ".")).
    { split; [done |]. intros k j [= <- <-]. lia. }
    destruct (decide (c = "(")).
    { destruct (IH (Some ")") (i + 1) [] []) as [H1 H2]; [lia | lia |].
      destruct (parse_alternatives fuel pattern (Some ")") (i + 1) [] [])
        as [[inner j0] | |]; simpl; [| done | done].
      split; [done |]. intros k j [= <- <-].
      destruct (H2 inner j0 eq_refl) as [? ?]. lia. }
    split; [done |]. intros k j [= <- <-]. lia. }
  destruct o as [[k j] | e |]; simpl; [| done | done].
  destruct (Ho2 k j eq_refl) as [Hj1 Hj2].
  destruct (parse_quant pattern j) as [quant j'] eqn:Hq.
  apply parse_quant_progress in Hq as (Hq1 & Hq2 & _).
  destruct (IH end_char j' alts (seq ++ [Token k quant])) as [H1 H2];
    [lia | lia |].
  split; [done |]. intros r j1 Hr. apply H2 in Hr. split; [lia |].
  intros He. lia.
Qed.

Lemma parse_pattern_total pattern : parse_pattern pattern ≠ OutOfFuel.
Proof.
  unfold parse_pattern.
  destruct (parse_alternatives_progress pattern (S (length pattern)) None 0 [] [])
    as [H _]; [lia | lia |].
  destruct (parse_alternatives _ _ _ _ _ _) as [[alts idx] | |];
    simpl; [| done | done].
  by destruct alts as [| ? [|]].
Qed.

Lemma bind_Ret {A B} (m : res A) (f : A → res B) b :
  m ≫= f = Ret b → ∃ a, m = Ret a ∧ f a = Ret b.
Proof. destruct m as [a | |]; simpl; [eauto | done | done]. Qed.

(* --------------------------------------------------------------------- *)
(* Groups have alternatives                                              *)
(* --------------------------------------------------------------------- *)

Lemma parse_alternatives_nonempty pattern fuel end_char i alts seq r j :
  parse_alternatives fuel pattern end_char i alts seq = Ret (r, j) →
  forallb (forallb groups_nonempty) alts = true →
  forallb groups_nonempty seq = true →
  r ≠ [] ∧ forallb (forallb groups_nonempty) r = true.
Proof.
  revert end_char i alts seq r j.
  induction fuel as [| fuel IH]; intros end_char i alts seq r j; [done |].
  assert (∀ alts seq, forallb (forallb groups_nonempty) alts = true →
            forallb groups_nonempty seq = true →
            alts ++ [seq] ≠ []
            ∧ forallb (forallb groups_nonempty) (alts ++ [seq]) = true) as Hexit.
  { intros a s Ha Hs. split; [by destruct a |].
    rewrite forallb_app, Ha. simpl. by rewrite Hs. }
  destruct (pattern !! i) as [c |] eqn:Hc.
  2:{ simpl. rewrite Hc. destruct end_char; [done |].
      intros [= <- <-]. apply Hexit. }
  destruct (decide (end_char = Some c)) as [Hec | Hec].
  { simpl. rewrite Hc, decide_True by done. intros [= <- <-]. apply Hexit. }
  destruct (decide (c = "|")) as [Hbar | Hbar].
  { simpl. rewrite Hc, decide_False, decide_True by done.
    intros Hr Ha Hs. apply (IH _ _ _ _ _ _ Hr); [| done]. by apply Hexit. }
  rewrite (parse_alternatives_step _ _ _ _ _ _ c) by done.
  intros ([k j0] & Hatom & Hr)%bind_Ret Ha Hs.
  destruct (parse_quant pattern j0) as [quant j'].
  apply (IH _ _ _ _ _ _ Hr); [done |].
  rewrite forallb_app, Hs. simpl. rewrite andb_true_r.
  unfold parse_atom in Hatom.
  repeat case_decide.
  - injection Hatom as Hatom. apply parse_escape_progress in Hatom as [Hk _].
    + by destruct k.
    + by apply lookup_lt_Some in Hc.
  - apply parse_class_progress in Hatom as [Hk _]. by destruct k.
  - by injection Hatom as <- _.
  - apply bind_Ret in Hatom as ([inner j1] & Hinner & [= <- _]).
    apply IH in Hinner as [Hne Hwf]; [| done | done].
    simpl. by destruct inner.
  - by injection Hatom as <- _.
Qed.

(** C8.  For every pattern on which compilation succeeds, every Group token
    of the resulting token tree, the implicit top-level group included, has
    a non-empty list of alternatives. *)
Theorem compiled_groups_nonempty pattern tokens :
  parse_pattern pattern = Ret tokens →
  forallb groups_nonempty tokens = true.
Proof.
  unfold parse_pattern. intros ([alts idx] & Hp & Hr)%bind_Ret.
  apply parse_alternatives_nonempty in Hp as [Hne Hwf]; [| done | done].
  destruct alts as [| s [| s' alts]]; [done | |].
  - injection Hr as <-. simpl in Hwf. by rewrite andb_true_r in Hwf.
  - injection Hr as <-. simpl in *. by rewrite Hwf.
Qed.

Lemma compiled_groups_nonempty_witness :
  forallb groups_nonempty
    [Token (Group [[Token (Literal "a") QNone]; []; [Token (Literal "b") QNone]])
       QNone] = true.
Proof.
  apply (compiled_groups_nonempty (str "a||b")). reflexivity.
Defined.

(* --------------------------------------------------------------------- *)
(* Quantifiers                                                           *)
(* --------------------------------------------------------------------- *)

Lemma parse_quant_quantifier pattern j c :
  pattern !! j = Some c → is_quantifier c = true →
  parse_quant pattern j = (quantifier_of c, j + 1).
Proof.
  intros Hc [->%bool_decide_eq_true | ->%bool_decide_eq_true]%orb_true_iff;
    unfold parse_quant; by rewrite Hc.
Qed.

Lemma parse_atom_quantifier parse_group pattern i c :
  is_quantifier c = true →
  parse_atom parse_group pattern i c = Ret (Literal c, i + 1).
Proof.
  by intros [->%bool_decide_eq_true | ->%bool_decide_eq_true]%orb_true_iff.
Qed.

(** C7.  A quantifier character (+ or ?) that follows an atom attaches to
    exactly that atom: when the atom that the character c starts at index i
    ends before index j and the character c1 at j is a quantifier character,
    the compiler appends the atom with the quantifier of c1 to the current
    sequence, whose earlier tokens are unchanged, and goes on at j + 1,
    whatever follows; when the character at j is no quantifier character, or
    the pattern ends at j, it appends the atom without quantifier and goes on
    at j.  Quantifiers do not stack: when two quantifier characters c1 and c2
    follow the atom, the atom takes the quantifier of c1 and c2 is parsed as
    a new atom, the literal c2 (which takes the quantifier that follows it,
    if any).  So "a+b" compiles to a+ followed by b, "(ab)?c" to the group
    with ? followed by c, "a++" to a+ followed by the literal '+', and "a+?"
    to a+ followed by the literal '?'; likewise after an escape, a class, a
    dot and a group. *)
Theorem quantifiers_do_not_stack :
  (∀ fuel pattern end_char i c alts seq k j c1,
     pattern !! i = Some c → end_char ≠ Some c → c ≠ "|" →
     parse_atom (λ j, parse_alternatives fuel pattern (Some ")") j [] [])
       pattern i c = Ret (k, j) →
     pattern !! j = Some c1 → is_quantifier c1 = true →
     parse_alternatives (S fuel) pattern end_char i alts seq
     = parse_alternatives fuel pattern end_char (j + 1) alts
         (seq ++ [Token k (quantifier_of c1)]))
  ∧ (∀ fuel pattern end_char i c alts seq k j,
       pattern !! i = Some c → end_char ≠ Some c → c ≠ "|" →
       parse_atom (λ j, parse_alternatives fuel pattern (Some ")") j [] [])
         pattern i c = Ret (k, j) →
       pattern !! j ≠ Some "+" → pattern !! j ≠ Some "?" →
       parse_alternatives (S fuel) pattern end_char i alts seq
       = parse_alternatives fuel pattern end_char j alts
           (seq ++ [Token k QNone]))
  ∧ (∀ fuel pattern end_char i c alts seq k j c1 c2,
       pattern !! i = Some c → end_char ≠ Some c → c ≠ "|" →
       parse_atom (λ j, parse_alternatives (S fuel) pattern (Some ")") j [] [])
         pattern i c = Ret (k, j) →
       pattern !! j = Some c1 → is_quantifier c1 = true →
       pattern !! (j + 1) = Some c2 → is_quantifier c2 = true →
       end_char = None ∨ end_char = Some ")" →
       parse_alternatives (S (S fuel)) pattern end_char i alts seq
       = let '(quant, j') := parse_quant pattern (j + 2) in
         parse_alternatives fuel pattern end_char j' alts
           (seq ++ [Token k (quantifier_of c1); Token (Literal c2) quant]))
  ∧ quantifier_of "+" = OneOrMore ∧ quantifier_of "?" = ZeroOrOne
  ∧ parse_pattern (str "a+b")
    = Ret [Token (Literal "a") OneOrMore; Token (Literal "b") QNone]
  ∧ parse_pattern (str "ab?")
    = Ret [Token (Literal "a") QNone; Token (Literal "b") ZeroOrOne]
  ∧ parse_pattern (str "a+")
    = Ret [Token (Literal "a") OneOrMore]
  ∧ parse_pattern (str "(ab)?c")
    = Ret [Token (Group [[Token (Literal "a") QNone;
                           Token (Literal "b") QNone]]) ZeroOrOne;
           Token (Literal "c") QNone]
  ∧ parse_pattern (str "\d+x")
    = Ret [Token Digit OneOrMore; Token (Literal "x") QNone]
  ∧ parse_pattern (str "[ab]?c")
    = Ret [Token (Class (list_to_set (str "ab")) false) ZeroOrOne;
           Token (Literal "c") QNone]
  ∧ parse_pattern (str ".+a")
    = Ret [Token Dot OneOrMore; Token (Literal "a") QNone]
  ∧ parse_pattern (str "a++")
    = Ret [Token (Literal "a") OneOrMore; Token (Literal "+") QNone]
  ∧ parse_pattern (str "a+?")
    = Ret [Token (Literal "a") OneOrMore; Token (Literal "?") QNone]
  ∧ parse_pattern (str "a?+")
    = Ret [Token (Literal "a") ZeroOrOne; Token (Literal "+") QNone]
  ∧ parse_pattern (str "\d++")
    = Ret [Token Digit OneOrMore; Token (Literal "+") QNone]
  ∧ parse_pattern (str ".?+")
    = Ret [Token Dot ZeroOrOne; Token (Literal "+") QNone]
  ∧ parse_pattern (str "(a)+?")
    = Ret [Token (Group [[Token (Literal "a") QNone]]) OneOrMore;
           Token (Literal "?") QNone]
  ∧ parse_pattern (str "a+++")
    = Ret [Token (Literal "a") OneOrMore; Token (Literal "+") OneOrMore].
Proof.
  assert (∀ fuel pattern end_char i c alts seq k j c1,
     pattern !! i = Some c → end_char ≠ Some c → c ≠ "|" →
     parse_atom (λ j, parse_alternatives fuel pattern (Some ")") j [] [])
       pattern i c = Ret (k, j) →
     pattern !! j = Some c1 → is_quantifier c1 = true →
     parse_alternatives (S fuel) pattern end_char i alts seq
     = parse_alternatives fuel pattern end_char (j + 1) alts
         (seq ++ [Token k (quantifier_of c1)])) as Hattach.
  { intros fuel pattern end_char i c alts seq k j c1 Hc Hec Hbar Hatom Hc1 Hq1.
    rewrite (parse_alternatives_step _ _ _ _ _ _ c) by done.
    rewrite Hatom. change (Ret (k, j) ≫= ?f) with (f (k, j)). cbv beta iota.
    by rewrite (parse_quant_quantifier _ _ c1). }
  split; [done |]. split; [| split].
  - intros fuel pattern end_char i c alts seq k j Hc Hec Hbar Hatom Hn1 Hn2.
    rewrite (parse_alternatives_step _ _ _ _ _ _ c) by done.
    rewrite Hatom. change (Ret (k, j) ≫= ?f) with (f (k, j)). cbv beta iota.
    unfold parse_quant. destruct (pattern !! j) as [c1 |]; [| done].
    rewrite !decide_False; [done | ..]; congruence.
  - intros fuel pattern end_char i c alts seq k j c1 c2
      Hc Hec Hbar Hatom Hc1 Hq1 Hc2 Hq2 Hend.
    rewrite (Hattach _ _ _ _ c _ _ k j c1) by done.
    assert (end_char ≠ Some c2 ∧ c2 ≠ "|") as [Hec2 Hbar2].
    { apply orb_true_iff in Hq2
        as [->%bool_decide_eq_true | ->%bool_decide_eq_true];
        by destruct Hend as [-> | ->]. }
    rewrite (parse_alternatives_step _ _ _ _ _ _ c2) by done.
    rewrite parse_atom_quantifier by done.
    change (Ret (Literal c2, j + 1 + 1) ≫= ?f) with (f (Literal c2, j + 1 + 1)).
    cbv beta iota.
    replace (j + 1 + 1) with (j + 2) by lia.
    destruct (parse_quant pattern (j + 2)) as [quant j'].
    by rewrite <- app_assoc.
  - repeat split; by vm_compute.
Qed.

Lemma quantifiers_do_not_stack_witness :
  parse_alternatives 5 (str "a+b") None 0 [] []
  = parse_alternatives 4 (str "a+b") None (1 + 1) []
      ([] ++ [Token (Literal "a") (quantifier_of "+")]).
Proof.
  apply (proj1 quantifiers_do_not_stack 4 (str "a+b") None 0 "a" [] []
           (Literal "a") 1 "+");
    try reflexivity; discriminate.
Defined.

(* --------------------------------------------------------------------- *)
(* Literal-only patterns                                                 *)
(* --------------------------------------------------------------------- *)

Lemma literal_only_lookup pattern i c :
  literal_only pattern = true → pattern !! i = Some c → c ∉ metachars.
Proof.
  intros Hl Hc. unfold literal_only in Hl.
  rewrite forallb_forall in Hl.
  specialize (Hl c). rewrite negb_true_iff, bool_decide_eq_false in Hl.
  apply Hl. apply list_elem_of_In. by eapply list_elem_of_lookup_2.
Qed.

Lemma not_metachar c m : c ∉ metachars → m ∈ metachars → c ≠ m.
Proof. by intros Hc Hm ->. Qed.

Ltac metachar := apply (bool_decide_unpack _); by vm_compute.





Lemma matches_at_literal c quant line pos :
  matches_at (Token (Literal c) quant) line pos
  = bool_decide (line !! pos = Some c).
Proof.
  unfold matches_at. destruct (line !! pos) as [ch |]; simpl.
  - apply bool_decide_ext. split; [by intros -> | by intros [= ->]].
  - done.
Qed.

(* Literal tokens match exactly their characters. *)
Lemma match_set_literals line p pos :
  match_set line (literals p) pos
  = if decide (take (length p) (drop pos line) = p)
    then {[pos + length p]} else ∅.
Proof.
  revert pos. induction p as [| c p IH]; intros pos.
  - change (literals []) with (@nil token). rewrite match_set_nil.
    change (length (@nil ascii)) with 0. rewrite take_0, Nat.add_0_r.
    by rewrite decide_True.
  - change (literals (c :: p)) with (Token (Literal c) QNone :: literals p).
    rewrite match_set_atom_none by done. rewrite matches_at_literal.
    destruct (line !! pos) as [ch |] eqn:Hch.
    + rewrite (drop_S _ _ _ Hch).
      change (take (length (c :: p)) (ch :: drop (S pos) line))
        with (ch :: take (length p) (drop (S pos) line)).
      change (length (c :: p)) with (S (length p)).
      case_bool_decide as Hc.
      * injection Hc as ->. rewrite IH, Nat.add_1_r.
        destruct (decide (take (length p) (drop (S pos) line) = p)) as [-> | Hn].
        -- rewrite decide_True by done. f_equal. lia.
        -- rewrite decide_False; [done |]. by intros [= ?].
      * rewrite decide_False; [done |]. intros [= -> ?]. done.
    + rewrite bool_decide_eq_false_2 by done.
      apply lookup_ge_None in Hch. rewrite drop_ge by done.
      by rewrite decide_False.
Qed.

Lemma substring_take_drop p line :
  substring p line
  ↔ ∃ start, start ≤ length line ∧ take (length p) (drop start line) = p.
Proof.
  split.
  - intros (pre & post & ->). exists (length pre). split.
    + rewrite length_app. lia.
    + by rewrite drop_app_length, take_app_length.
  - intros (start & _ & Hp). exists (take start line), (drop (length p) (drop start line)).
    rewrite <- Hp at 1. by rewrite !take_drop.
Qed.

(* Without anchor, on one line: the literals match iff they are a substring. *)
Lemma line_matches_literals p line :
  line_matches (literals p) false false line = true ↔ substring p line.
Proof.
  rewrite substring_take_drop. unfold line_matches, starts. simpl.
  rewrite existsb_exists. split.
  - intros (start & Hin & Hne). exists start.
    apply in_seq in Hin. split; [lia |].
    rewrite match_set_literals in Hne.
    destruct (decide _) as [| _]; [done |].
    by apply bool_decide_eq_true in Hne.
  - intros (start & Hle & Hp). exists start. split; [apply in_seq; lia |].
    rewrite match_set_literals, decide_True by done.
    apply bool_decide_eq_true. set_solver.
Qed.


Lemma literal_only_anchors p :
  literal_only p = true →
  anchor_start p = false ∧ anchor_end p = false ∧ strip_anchors p = p.
Proof.
  intros Hl.
  assert (anchor_start p = false) as Hs.
  { unfold anchor_start, startswith. destruct p as [| c p]; [done |].
    apply bool_decide_eq_false.
    apply (not_metachar _ _ (literal_only_lookup _ 0 _ Hl eq_refl)). metachar. }
  assert (anchor_end p = false) as He.
  { unfold anchor_end, strip_start, endswith. rewrite Hs.
    destruct (last p) as [c |] eqn:Hc; [| done].
    rewrite last_lookup in Hc.
    apply bool_decide_eq_false.
    apply (not_metachar _ _ (literal_only_lookup _ _ _ Hl Hc)). metachar. }
  unfold strip_anchors, strip_start. by rewrite He, Hs.
Qed.


(* --------------------------------------------------------------------- *)
(* Errors                                                                *)
(* --------------------------------------------------------------------- *)

(* match_pattern fails exactly when the compiler does, with its error. *)
Lemma matches_eq input_line pattern :
  matches input_line pattern
  = (tokens ← parse_pattern (strip_anchors pattern);
     Ret (match_result tokens (anchor_start pattern) (anchor_end pattern)
            input_line)).
Proof.
  unfold matches.
  destruct (parse_pattern (strip_anchors pattern)) as [tokens | e |] eqn:Hp.
  - by apply match_pattern_ret.
  - by rewrite match_pattern_unfold, Hp.
  - by destruct (parse_pattern_total (strip_anchors pattern)).
Qed.

(* ===================================================================== *)
(* Sequences: matching one token, then the rest                          *)
(* ===================================================================== *)

Lemma bigcup_singleton R p : bigcup R {[p]} = R p.
Proof.
  apply set_eq. intros e. rewrite elem_of_bigcup. split.
  - by intros (q & ->%elem_of_singleton & He).
  - intros He. exists p. by rewrite elem_of_singleton.
Qed.

Lemma elem_of_range_down_union (R : nat → gset nat) pos max_k e :
  e ∈ ⋃ ((λ j, R (pos + j)) <$> range_down max_k)
  ↔ ∃ j, 1 ≤ j ≤ max_k ∧ e ∈ R (pos + j).
Proof.
  rewrite elem_of_union_list. unfold range_down. split.
  - intros (Y & (j & -> & Hj)%list_elem_of_fmap & He).
    apply elem_of_reverse, elem_of_seq in Hj. exists j. split; [lia | done].
  - intros (j & Hj & He). exists (R (pos + j)). split; [| done].
    apply list_elem_of_fmap. exists j. split; [done |].
    apply elem_of_reverse, elem_of_seq. lia.
Qed.

(* The end positions of t followed by tokens: the end positions of tokens
   from the end positions of t alone. *)
Lemma match_set_cons_split line t tokens pos e :
  e ∈ match_set line (t :: tokens) pos
  ↔ ∃ p, p ∈ match_set line [t] pos ∧ e ∈ match_set line tokens p.
Proof.
  destruct t as [k quant].
  destruct (is_group k) eqn:Hk.
  - destruct k as [| | | | | alternatives]; try done.
    destruct quant.
    + rewrite !match_set_group_none, !elem_of_bigcup.
      setoid_rewrite elem_of_bigcup. setoid_rewrite match_set_nil.
      split.
      * intros (p & Hp & He). exists p. split; [| done].
        exists p. by rewrite elem_of_singleton.
      * intros (p & (q & Hq & ->%elem_of_singleton) & He). eauto.
    + destruct (match_set_group_plus line alternatives tokens pos)
        as (X1 & HX1 & ->).
      destruct (match_set_group_plus line alternatives [] pos)
        as (X2 & HX2 & ->).
      rewrite elem_of_bigcup. setoid_rewrite elem_of_bigcup.
      setoid_rewrite match_set_nil. split.
      * intros (p & Hp & He). exists p. split; [| done].
        exists p. rewrite HX2, <- HX1. by rewrite elem_of_singleton.
      * intros (p & (q & Hq & ->%elem_of_singleton) & He).
        exists q. by rewrite HX1, <- HX2.
    + rewrite !match_set_group_opt, !elem_of_union, !elem_of_bigcup.
      setoid_rewrite elem_of_union. setoid_rewrite elem_of_bigcup.
      setoid_rewrite match_set_nil. split.
      * intros [He | (p & Hp & He)].
        -- exists pos. split; [left; by apply elem_of_singleton | done].
        -- exists p. split; [right | done].
           exists p. by rewrite elem_of_singleton.
      * intros (p & [->%elem_of_singleton | (q & Hq & ->%elem_of_singleton)] & He);
          eauto.
  - destruct quant.
    + rewrite !match_set_atom_none by done.
      destruct (matches_at (Token k QNone) line pos).
      * rewrite match_set_nil. split; [| by intros (p & ->%elem_of_singleton & He)].
        intros He. exists (pos + 1). by rewrite elem_of_singleton.
      * split; [set_solver | by intros (p & Hp%elem_of_empty & _)].
    + pose proof (match_set_atom_plus line k tokens pos Hk) as H1.
      pose proof (match_set_atom_plus line k [] pos Hk) as H2.
      cbv zeta in H1, H2. rewrite H1, H2, !elem_of_range_down_union.
      setoid_rewrite elem_of_range_down_union.
      setoid_rewrite match_set_nil. split.
      * intros (j & Hj & He). exists (pos + j). split; [| done].
        exists j. by rewrite elem_of_singleton.
      * intros (p & (j & Hj & ->%elem_of_singleton) & He). eauto.
    + rewrite !match_set_atom_opt by done. rewrite !elem_of_union.
      setoid_rewrite elem_of_union. setoid_rewrite match_set_nil.
      destruct (matches_at (Token k ZeroOrOne) line pos).
      * split.
        -- intros [He | He].
           ++ exists pos. split; [left; by apply elem_of_singleton | done].
           ++ exists (pos + 1). split; [right; by apply elem_of_singleton | done].
        -- intros (p & [->%elem_of_singleton | ->%elem_of_singleton] & He); eauto.
      * split.
        -- intros [He | He%elem_of_empty]; [| done].
           exists pos. split; [left; by apply elem_of_singleton | done].
        -- intros (p & [->%elem_of_singleton | Hp%elem_of_empty] & He);
             [eauto | done].
Qed.

(* Concatenation: the end positions of s1 ++ s2 are those of s2 from the end
   positions of s1. *)
Lemma match_set_app line s1 s2 pos :
  match_set line (s1 ++ s2) pos
  = bigcup (match_set line s2) (match_set line s1 pos).
Proof.
  revert pos. induction s1 as [| t s1 IH]; intros pos.
  - simpl. by rewrite match_set_nil, bigcup_singleton.
  - apply set_eq. intros e. simpl.
    rewrite elem_of_bigcup, match_set_cons_split.
    setoid_rewrite (match_set_cons_split line t s1).
    setoid_rewrite IH. setoid_rewrite elem_of_bigcup. naive_solver.
Qed.

(* ===================================================================== *)
(* The matcher and the words of a token sequence                         *)
(* ===================================================================== *)

Lemma ends_in_ext (L1 L2 : list ascii → Prop) line pos e :
  (∀ w, L1 w ↔ L2 w) → ends_in L1 line pos e ↔ ends_in L2 line pos e.
Proof. intros H. unfold ends_in. by setoid_rewrite H. Qed.

Lemma ends_in_nil line pos e : ends_in (λ w, w = []) line pos e ↔ e = pos.
Proof.
  split.
  - intros (w & -> & _ & ->). simpl. lia.
  - intros ->. exists []. split; [done |]. split; [apply prefix_nil | simpl; lia].
Qed.

(* An occurrence of a word of L1 followed by an occurrence of a word of L2 is
   an occurrence of their concatenation. *)
Lemma ends_in_app (L1 L2 : list ascii → Prop) line pos e :
  (∃ p, ends_in L1 line pos p ∧ ends_in L2 line p e)
  ↔ ends_in (λ w, ∃ w1 w2, w = w1 ++ w2 ∧ L1 w1 ∧ L2 w2) line pos e.
Proof.
  split.
  - intros (p & (w1 & H1 & [k1 Hk1] & ->) & (w2 & H2 & [k2 Hk2] & ->)).
    exists (w1 ++ w2). split; [by eauto |]. split.
    + exists k2. rewrite <- drop_drop, Hk1, drop_app_length in Hk2.
      by rewrite Hk1, Hk2, <- app_assoc.
    + rewrite length_app. lia.
  - intros (w & (w1 & w2 & -> & H1 & H2) & [k Hk] & ->).
    exists (pos + length w1). split.
    + exists w1. split; [done |]. split; [| done].
      exists (w2 ++ k). by rewrite Hk, <- app_assoc.
    + exists w2. split; [done |]. split; [| rewrite length_app; lia].
      exists k. by rewrite <- drop_drop, Hk, <- app_assoc, drop_app_length.
Qed.

(* One or more characters accepted by a predicate. *)
Lemma plus_chars (pred : ascii → bool) w :
  plus (λ w, ∃ ch, w = [ch] ∧ pred ch = true) w
  ↔ w ≠ [] ∧ Forall (λ ch, pred ch = true) w.
Proof.
  split.
  - induction 1 as [w (ch & -> & Hch) | w1 w2 _ [Hne IH] (ch & -> & Hch)].
    + split; [done | by constructor].
    + split; [by destruct w1 |]. apply Forall_app. split; [done | by constructor].
  - intros [Hne H]. induction w as [| ch w IH] using rev_ind; [done |].
    apply Forall_app in H as [Hw Hch%Forall_inv].
    destruct w as [| c w'].
    + apply plus_once. eauto.
    + apply plus_more; [by apply IH | eauto].
Qed.

Lemma run_prefix t w s :
  w `prefix_of` s →
  Forall (λ ch, token_matches_char t ch = true) w ↔ length w ≤ run t s.
Proof.
  revert s. induction w as [| c w IH]; intros s [k ->]; simpl.
  - split; [lia | by constructor].
  - rewrite Forall_cons. destruct (token_matches_char t c).
    + rewrite (IH (w ++ k)) by (by exists k). split; [intros [_ ?]; lia | ].
      intros ?. split; [done | lia].
    + split; [by intros [? _] | lia].
Qed.

(* The closure of a OneOrMore group: one or more occurrences. *)
Lemma reach_plus (f : nat → gset nat) (L : list ascii → Prop) line pos e :
  (∀ p e, e ∈ f p ↔ ends_in L line p e) →
  reach f pos e ↔ ends_in (plus L) line pos e.
Proof.
  intros Hf. split.
  - induction 1 as [e He | p e _ IH He]; apply Hf in He.
    + destruct He as (w & Hw & Hpre & ->). exists w. split; [by apply plus_once | done].
    + assert (ends_in (λ w, ∃ w1 w2, w = w1 ++ w2 ∧ plus L w1 ∧ L w2) line pos e)
        as (w & (w1 & w2 & -> & H1 & H2) & Hw).
      { apply ends_in_app. eauto. }
      exists (w1 ++ w2). split; [by apply plus_more | done].
  - intros (w & Hw & Hpre & ->). revert Hpre.
    induction Hw as [w Hw | w1 w2 _ IH H2]; intros Hpre.
    + apply reach_once, Hf. by exists w.
    + assert (ends_in (λ w, ∃ u v, w = u ++ v ∧ (λ u, u = w1) u ∧ (λ v, v = w2) v)
                line pos (pos + length (w1 ++ w2))) as Hsplit.
      { exists (w1 ++ w2). split; [by eauto | done]. }
      apply ends_in_app in Hsplit
        as (p & (u & -> & Hu & ->) & (v & -> & Hv & Hlen)).
      apply (reach_more _ _ (pos + length w1)); [by apply IH |].
      apply Hf. exists w2. split; [done |]. split; [done |].
      rewrite Hlen. done.
Qed.

Lemma token_lang_atom k quant w :
  is_group k = false →
  token_lang (Token k quant) w
  = quant_lang quant
      (λ w, ∃ ch, w = [ch] ∧ token_matches_char (Token k quant) ch = true) w.
Proof. by destruct k. Qed.

Lemma matches_at_ends_in t line pos e :
  e ∈ (if matches_at t line pos then {[pos + 1]} else ∅ : gset nat)
  ↔ ends_in (λ w, ∃ ch, w = [ch] ∧ token_matches_char t ch = true) line pos e.
Proof.
  destruct (matches_at t line pos) eqn:Hm.
  - apply matches_at_true in Hm as (ch & Hch & Hp).
    rewrite elem_of_singleton. split.
    + intros ->. exists [ch]. split; [by eauto |]. split; [| done].
      exists (drop (S pos) line). by rewrite (drop_S _ _ _ Hch).
    + by intros (w & (c & -> & _) & _ & ->).
  - split; [by intros ?%elem_of_empty |].
    intros (w & (ch & -> & Hch) & [k Hk] & _).
    assert (line !! pos = Some ch) as Hl.
    { rewrite <- (Nat.add_0_r pos), <- lookup_drop, Hk. done. }
    unfold matches_at in Hm. rewrite Hl in Hm. congruence.
Qed.

(* The end positions of one token are the ends of the occurrences of its
   words. *)
Lemma match_set_token t :
  ∀ line pos e, e ∈ match_set line [t] pos ↔ ends_in (token_lang t) line pos e.
Proof.
  induction t as [k quant Hk | alternatives quant IH] using token_nested_ind;
    intros line pos e.
  - rewrite (ends_in_ext _ _ _ _ _ (λ w, eq_ind _ (λ X, X ↔ _) (iff_refl _) _
                                         (eq_sym (token_lang_atom k quant w Hk)))).
    destruct quant; simpl.
    + rewrite match_set_atom_none by done. rewrite match_set_nil.
      apply matches_at_ends_in.
    + pose proof (match_set_atom_plus line k [] pos Hk) as H. cbv zeta in H.
      rewrite H, elem_of_range_down_union. setoid_rewrite match_set_nil.
      setoid_rewrite elem_of_singleton. unfold ends_in.
      setoid_rewrite plus_chars. unfold max_run. split.
      * intros (j & Hj & ->).
        pose proof (run_le (Token k OneOrMore) (drop pos line)) as Hle.
        assert (length (take j (drop pos line)) = j) as Hlen
          by (rewrite length_take; lia).
        exists (take j (drop pos line)). split; [split |].
        -- intros Hnil. rewrite Hnil in Hlen. simpl in Hlen. lia.
        -- apply (run_prefix _ _ _ (prefix_take _ _)). lia.
        -- split; [apply prefix_take | lia].
      * intros (w & [Hne Hall] & Hpre & ->). exists (length w).
        split; [| done]. apply (run_prefix _ _ _ Hpre) in Hall.
        destruct w; [done | simpl in *; lia].
    + rewrite match_set_atom_opt by done. rewrite match_set_nil, elem_of_union.
      rewrite matches_at_ends_in. rewrite elem_of_singleton. split.
      * intros [-> | (w & Hw & Hpre & ->)].
        -- exists []. split; [by left |]. split; [apply prefix_nil | simpl; lia].
        -- exists w. split; [by right | done].
      * intros (w & [-> | Hw] & Hpre & ->); [left; simpl; lia |].
        right. by exists w.
  - set (L := λ w, Exists (λ L : list ascii → Prop, L w)
                     (map (seq_lang token_lang) alternatives)).
    assert (∀ p e, e ∈ one_occurrence line alternatives p ↔ ends_in L line p e)
      as Hone.
    { clear pos e. intros p e. rewrite elem_of_one_occurrence. unfold ends_in, L.
      setoid_rewrite Exists_exists. setoid_rewrite list_elem_of_fmap.
      assert (∀ alt, alt ∈ alternatives →
                ∀ p e, e ∈ match_set line alt p
                       ↔ ends_in (seq_lang token_lang alt) line p e) as Halt.
      { intros alt Hin. rewrite Forall_forall in IH. specialize (IH alt Hin).
        clear Hin. induction IH as [| t s Ht _ IHs]; intros q e'.
        - rewrite match_set_nil, elem_of_singleton. symmetry. apply ends_in_nil.
        - rewrite match_set_cons_split. setoid_rewrite Ht. setoid_rewrite IHs.
          apply ends_in_app. }
      split.
      - intros (alt & Hin & (w & Hw & Hpre)%Halt); [| done].
        exists w. split; [| done]. exists (seq_lang token_lang alt). eauto.
      - intros (w & (L' & (alt & -> & Hin) & Hw) & Hpre).
        exists alt. split; [done |]. apply Halt; [done |]. by exists w. }
    change (token_lang (Token (Group alternatives) quant))
      with (quant_lang quant L).
    destruct quant; simpl.
    + rewrite match_set_group_none, elem_of_bigcup.
      setoid_rewrite match_set_nil. setoid_rewrite elem_of_singleton.
      rewrite <- Hone. naive_solver.
    + destruct (match_set_group_plus line alternatives [] pos) as (X & HX & ->).
      rewrite elem_of_bigcup.
      setoid_rewrite match_set_nil. setoid_rewrite elem_of_singleton.
      setoid_rewrite HX. rewrite <- (reach_plus _ _ _ _ _ Hone). naive_solver.
    + rewrite match_set_group_opt, elem_of_union, elem_of_bigcup.
      rewrite match_set_nil, elem_of_singleton.
      setoid_rewrite match_set_nil. setoid_rewrite elem_of_singleton.
      setoid_rewrite Hone. split.
      * intros [-> | (p & (w & Hw & Hpre & ->) & ->)].
        -- exists []. split; [by left |]. split; [apply prefix_nil | simpl; lia].
        -- exists w. split; [by right | done].
      * intros (w & [-> | Hw] & Hpre & ->); [left; simpl; lia |].
        right. exists (pos + length w). split; [| done]. by exists w.
Qed.

(* The end positions of a sequence are the ends of the occurrences of its
   words. *)
Lemma match_set_lang line tokens pos e :
  e ∈ match_set line tokens pos ↔ ends_in (tokens_lang tokens) line pos e.
Proof.
  revert pos e. induction tokens as [| t tokens IH]; intros pos e.
  - rewrite match_set_nil, elem_of_singleton. symmetry. apply ends_in_nil.
  - rewrite match_set_cons_split. setoid_rewrite match_set_token.
    setoid_rewrite IH. apply ends_in_app.
Qed.

(* ===================================================================== *)
(* Lines and the words found in them                                     *)
(* ===================================================================== *)

Lemma splitlines_from_substring n s cur line :
  length s ≤ n →
  line ∈ splitlines_from cur s → substring line (reverse cur ++ s).
Proof.
  revert s cur. induction n as [| n IH]; intros [| ch s] cur Hn; simpl in *;
    try lia.
  - destruct cur; [by intros ?%elem_of_nil |].
    intros ->%list_elem_of_singleton. exists [], []. by rewrite !app_nil_r.
  - destruct cur; [by intros ?%elem_of_nil |].
    intros ->%list_elem_of_singleton. exists [], []. by rewrite !app_nil_r.
  - destruct (is_linebreak ch).
    + intros [-> | Hin]%elem_of_cons; [by exists [], (ch :: s) |].
      destruct s as [| ch' s'].
      * by apply elem_of_nil in Hin.
      * destruct (decide (ch = CR ∧ ch' = LF)).
        -- apply (IH s' []) in Hin as (pre & post & Heq); [| simpl in *; lia].
           simpl in Heq. exists (reverse cur ++ ch :: ch' :: pre), post.
           rewrite Heq, <- !app_assoc. done.
        -- apply (IH (ch' :: s') []) in Hin as (pre & post & Heq);
             [| simpl in *; lia].
           simpl in Heq. exists (reverse cur ++ ch :: pre), post.
           rewrite Heq, <- !app_assoc. done.
    + intros Hin. apply (IH s (ch :: cur)) in Hin; [| lia].
      by rewrite reverse_cons, <- app_assoc in Hin.
Qed.

(* Every line that is tested is a contiguous part of the input. *)
Lemma lines_of_substring input line :
  line ∈ lines_of input → substring line input.
Proof.
  unfold lines_of. destruct (_ && _).
  - intros ->%list_elem_of_singleton. by exists [], input.
  - intros H. by apply (splitlines_from_substring (length input)) in H.
Qed.

Lemma substring_trans u v w : substring u v → substring v w → substring u w.
Proof.
  intros (p1 & q1 & ->) (p2 & q2 & ->). exists (p2 ++ p1), (q1 ++ q2).
  by rewrite <- !app_assoc.
Qed.

Lemma substring_prefix_drop w line :
  substring w line ↔ ∃ start, start ≤ length line ∧ w `prefix_of` drop start line.
Proof.
  split.
  - intros (pre & post & ->). exists (length pre). split.
    + rewrite length_app. lia.
    + rewrite drop_app_length. by exists post.
  - intros (start & _ & [k Hk]). exists (take start line), k.
    by rewrite <- Hk, take_drop.
Qed.

Lemma existsb_starts (f : nat → bool) n :
  existsb f (starts n) = true ↔ ∃ start, start ≤ n ∧ f start = true.
Proof.
  unfold starts. rewrite existsb_exists. split.
  - intros (start & Hin%in_seq & Hf). exists start. split; [lia | done].
  - intros (start & Hle & Hf). exists start. split; [apply in_seq; lia | done].
Qed.

(* no anchor: a word occurs somewhere in the line *)
Lemma line_matches_search tokens line :
  line_matches tokens false false line = true
  ↔ ∃ w, tokens_lang tokens w ∧ substring w line.
Proof.
  unfold line_matches. simpl. rewrite existsb_starts.
  setoid_rewrite substring_prefix_drop. setoid_rewrite bool_decide_eq_true.
  split.
  - intros (start & Hle & (e & (w & Hw & Hpre & _)%match_set_lang)%set_choose_L).
    eauto.
  - intros (w & Hw & start & Hle & Hpre). exists start. split; [done |].
    apply (non_empty_inhabited_L (start + length w)).
    apply match_set_lang. by exists w.
Qed.

(* both anchors: the line is a word *)
Lemma line_matches_full tokens line :
  line_matches tokens true true line = true ↔ tokens_lang tokens line.
Proof.
  unfold line_matches. simpl. rewrite bool_decide_eq_true, match_set_lang.
  unfold ends_in. rewrite drop_0. split.
  - intros (w & Hw & [k ->] & Hlen). rewrite length_app in Hlen. simpl in Hlen.
    destruct k; [by rewrite app_nil_r | simpl in Hlen; lia].
  - intros Hw. by exists line.
Qed.

(* start anchor: a word is a prefix of the line *)
Lemma line_matches_prefix tokens line :
  line_matches tokens true false line = true
  ↔ ∃ w, tokens_lang tokens w ∧ w `prefix_of` line.
Proof.
  unfold line_matches. simpl. rewrite bool_decide_eq_true. split.
  - intros (e & (w & Hw & Hpre & _)%match_set_lang)%set_choose_L.
    rewrite drop_0 in Hpre. eauto.
  - intros (w & Hw & Hpre). apply (non_empty_inhabited_L (0 + length w)).
    apply match_set_lang. exists w. by rewrite drop_0.
Qed.

(* end anchor: a word is a suffix of the line *)
Lemma line_matches_suffix tokens line :
  line_matches tokens false true line = true
  ↔ ∃ w, tokens_lang tokens w ∧ w `suffix_of` line.
Proof.
  unfold line_matches. simpl. rewrite existsb_starts.
  setoid_rewrite bool_decide_eq_true. setoid_rewrite match_set_lang. split.
  - intros (start & Hle & w & Hw & [k Hk] & Hlen). exists w. split; [done |].
    exists (take start line). rewrite <- (take_drop start line) at 1.
    f_equal. rewrite Hk.
    assert (length (drop start line) = length w + length k) as Hl
      by (by rewrite Hk, length_app).
    rewrite length_drop in Hl. destruct k; [by rewrite app_nil_r |].
    simpl in Hl. lia.
  - intros (w & Hw & [pre ->]). exists (length pre). split.
    + rewrite length_app. lia.
    + exists w. split; [done |]. rewrite drop_app_length.
      split; [done | by rewrite length_app].
Qed.

(* ===================================================================== *)
(* The remaining cases of match_from                                     *)
(* ===================================================================== *)

(** X1.  match_from on a non-group token without quantifier, followed by
    [tokens]: when the character at pos exists and satisfies the predicate of
    the token, the result is what matching [tokens] from pos + 1 returns, and
    the empty set otherwise.  With the quantifier ?, the result is what
    matching [tokens] from pos returns (zero occurrences), joined, when the
    character at pos satisfies the predicate, with what matching [tokens]
    from pos + 1 returns. *)
Theorem single_token_spec line k tokens pos fuel :
  is_group k = false → S (S (length line)) ≤ fuel →
  (∀ p, match_from fuel line tokens p = Ret (match_set line tokens p))
  ∧ match_from fuel line (Token k QNone :: tokens) pos
    = Ret (if matches_at (Token k QNone) line pos
           then match_set line tokens (pos + 1) else ∅)
  ∧ match_from fuel line (Token k ZeroOrOne :: tokens) pos
    = Ret (match_set line tokens pos
           ∪ (if matches_at (Token k ZeroOrOne) line pos
              then match_set line tokens (pos + 1) else ∅)).
Proof.
  intros Hk Hf. split; [intros p; by apply match_from_ret |].
  rewrite !match_from_ret by done.
  by rewrite match_set_atom_none, match_set_atom_opt.
Qed.

Lemma single_token_spec_witness :
  match_from 5 (str "ab") [Token (Literal "a") ZeroOrOne; Token Dot QNone] 0
  = Ret (match_set (str "ab") [Token Dot QNone] 0
         ∪ (if matches_at (Token (Literal "a") ZeroOrOne) (str "ab") 0
            then match_set (str "ab") [Token Dot QNone] (0 + 1) else ∅)).
Proof.
  apply (single_token_spec (str "ab") (Literal "a") [Token Dot QNone] 0 5);
    [reflexivity | simpl; lia].
Defined.

(** X2.  match_from on a group without quantifier, followed by [tokens]: the
    union, over every end position of every alternative matched at pos, of
    what matching [tokens] from that position returns.  With the quantifier
    ?, what matching [tokens] from pos returns is added (zero occurrences). *)
Theorem group_once_spec line alternatives tokens pos fuel :
  S (S (length line)) ≤ fuel →
  (∀ e, e ∈ one_occurrence line alternatives pos
        ↔ ∃ alt, alt ∈ alternatives ∧ match_from fuel line alt pos
                                       = Ret (match_set line alt pos)
                 ∧ e ∈ match_set line alt pos)
  ∧ match_from fuel line (Token (Group alternatives) QNone :: tokens) pos
    = Ret (bigcup (match_set line tokens) (one_occurrence line alternatives pos))
  ∧ match_from fuel line (Token (Group alternatives) ZeroOrOne :: tokens) pos
    = Ret (match_set line tokens pos
           ∪ bigcup (match_set line tokens)
               (one_occurrence line alternatives pos)).
Proof.
  intros Hf. split.
  - intros e. rewrite elem_of_one_occurrence. split.
    + intros (alt & Hin & He). exists alt. by rewrite match_from_ret.
    + intros (alt & Hin & _ & He). eauto.
  - rewrite !match_from_ret by done.
    by rewrite match_set_group_none, match_set_group_opt.
Qed.

Lemma group_once_spec_witness :
  match_from 5 (str "ab")
    [Token (Group [str "a" ≫= λ c, [Token (Literal c) QNone]; []]) QNone;
     Token (Literal "b") QNone] 0
  = Ret (bigcup (match_set (str "ab") [Token (Literal "b") QNone])
           (one_occurrence (str "ab")
              [str "a" ≫= λ c, [Token (Literal c) QNone]; []] 0)).
Proof.
  apply (group_once_spec (str "ab")
           [str "a" ≫= λ c, [Token (Literal c) QNone]; []]
           [Token (Literal "b") QNone] 0 5).
  simpl. lia.
Defined.

(** X3.  Matching a concatenation: match_from on s1 ++ s2 returns the union,
    over the end positions p that matching s1 from pos returns, of what
    matching s2 from p returns. *)
Theorem match_from_app line s1 s2 pos fuel :
  S (S (length line)) ≤ fuel →
  ∃ ends1,
    match_from fuel line s1 pos = Ret ends1
    ∧ (∀ p, match_from fuel line s2 p = Ret (match_set line s2 p))
    ∧ match_from fuel line (s1 ++ s2) pos
      = Ret (bigcup (match_set line s2) ends1).
Proof.
  intros Hf. exists (match_set line s1 pos).
  split; [by apply match_from_ret |].
  split; [intros p; by apply match_from_ret |].
  by rewrite match_from_ret, match_set_app.
Qed.

Lemma match_from_app_witness :
  ∃ ends1,
    match_from 6 (str "aab") [Token (Literal "a") OneOrMore] 0 = Ret ends1
    ∧ (∀ p, match_from 6 (str "aab") [Token (Literal "b") ZeroOrOne] p
            = Ret (match_set (str "aab") [Token (Literal "b") ZeroOrOne] p))
    ∧ match_from 6 (str "aab")
        ([Token (Literal "a") OneOrMore] ++ [Token (Literal "b") ZeroOrOne]) 0
      = Ret (bigcup (match_set (str "aab") [Token (Literal "b") ZeroOrOne]) ends1).
Proof.
  apply (match_from_app (str "aab") [Token (Literal "a") OneOrMore]
           [Token (Literal "b") ZeroOrOne] 0 6).
  simpl. lia.
Defined.

(** X4.  match_from is sound and complete for the words of the token
    sequence: it returns exactly the positions pos + length w for the words w
    of the sequence that occur in the line at pos (a single occurrence of a
    non-group token is one character accepted by token_matches_char, of a
    group a word of one of its alternatives; ? allows the empty word, + one
    or more occurrences). *)
Theorem match_from_lang line tokens pos fuel :
  S (S (length line)) ≤ fuel →
  ∃ ends,
    match_from fuel line tokens pos = Ret ends
    ∧ ∀ e, e ∈ ends
           ↔ ∃ w, tokens_lang tokens w ∧ w `prefix_of` drop pos line
                  ∧ e = pos + length w.
Proof.
  intros Hf. exists (match_set line tokens pos).
  split; [by apply match_from_ret |]. intros e. apply match_set_lang.
Qed.

Lemma match_from_lang_witness :
  ∃ ends,
    match_from 7 (str "abab")
      [Token (Group [str "ab" ≫= λ c, [Token (Literal c) QNone]]) OneOrMore] 0
    = Ret ends
    ∧ ∀ e, e ∈ ends
           ↔ ∃ w, tokens_lang
                    [Token (Group [str "ab" ≫= λ c, [Token (Literal c) QNone]])
                       OneOrMore] w
                  ∧ w `prefix_of` drop 0 (str "abab") ∧ e = 0 + length w.
Proof.
  apply (match_from_lang (str "abab")
           [Token (Group [str "ab" ≫= λ c, [Token (Literal c) QNone]]) OneOrMore]
           0 7).
  simpl. lia.
Defined.

(* ===================================================================== *)
(* match_pattern and the words of the compiled pattern                   *)
(* ===================================================================== *)

Lemma existsb_elem_of {A} (f : A → bool) (l : list A) :
  existsb f l = true ↔ ∃ x, x ∈ l ∧ f x = true.
Proof. rewrite existsb_exists. by setoid_rewrite list_elem_of_In. Qed.

(* no anchor: some word occurs in the input *)
Lemma match_result_search tokens input_line :
  match_result tokens false false input_line = true
  ↔ ∃ w, tokens_lang tokens w ∧ substring w input_line.
Proof.
  unfold match_result. destruct (decide (length tokens = 0)) as [Hz | Hnz]; simpl.
  - destruct tokens; [| done]. split; [| done]. intros _.
    exists []. split; [done | by exists [], input_line].
  - rewrite orb_true_iff, existsb_elem_of, line_matches_search. split.
    + intros [(line & Hin%lines_of_substring & (w & Hw & Hsub)%line_matches_search)
             | H]; [| done].
      exists w. split; [done |]. by eapply substring_trans.
    + by right.
Qed.

(* both anchors: some line is a word *)
Lemma match_result_full tokens input_line :
  match_result tokens true true input_line = true
  ↔ ∃ line, line ∈ lines_of input_line ∧ tokens_lang tokens line.
Proof.
  unfold match_result. destruct (decide (length tokens = 0)) as [Hz | Hnz]; simpl.
  - destruct tokens; [| done]. rewrite andb_true_r, orb_true_iff.
    rewrite existsb_elem_of. setoid_rewrite bool_decide_eq_true.
    unfold lines_of. destruct input_line as [| ch s].
    + split; [| by right]. intros _. exists []. split; [| done].
      simpl. apply list_elem_of_singleton. done.
    + rewrite andb_false_r. split.
      * intros [(line & Hin & ->) | [=]]. by exists [].
      * intros (line & Hin & ->). left. by exists [].
  - rewrite orb_false_r, existsb_elem_of.
    by setoid_rewrite line_matches_full.
Qed.

(* one anchor: some word is a prefix, or a suffix, of some line *)
Lemma match_result_one_anchor tokens a_start input_line :
  tokens ≠ [] →
  match_result tokens a_start (negb a_start) input_line = true
  ↔ ∃ line w, line ∈ lines_of input_line ∧ tokens_lang tokens w
              ∧ if a_start then w `prefix_of` line else w `suffix_of` line.
Proof.
  intros Hne. unfold match_result.
  destruct (decide (length tokens = 0)) as [Hz | _]; [by destruct tokens |].
  destruct a_start; simpl; rewrite orb_false_r, existsb_elem_of.
  - setoid_rewrite line_matches_prefix. naive_solver.
  - setoid_rewrite line_matches_suffix. naive_solver.
Qed.

(** X5.  A pattern without anchor matches an input iff some word of the
    compiled pattern is a contiguous part of the input: the line breaks of
    the input play no role, since after the lines the whole input is
    searched too. *)
Theorem unanchored_search_spec input_line pattern tokens :
  anchor_start pattern = false → anchor_end pattern = false →
  parse_pattern pattern = Ret tokens →
  ∃ b, matches input_line pattern = Ret b
       ∧ (b = true ↔ ∃ w, tokens_lang tokens w ∧ substring w input_line).
Proof.
  intros Ha He Hp.
  assert (strip_anchors pattern = pattern) as Hs.
  { unfold strip_anchors, strip_start. by rewrite He, Ha. }
  eexists. split; [by rewrite matches_eq, Hs, Hp, Ha, He |].
  apply match_result_search.
Qed.

Lemma unanchored_search_spec_witness :
  ∃ b, matches ["a"; LF; "b"] (str "a.?b") = Ret b
       ∧ (b = true
          ↔ ∃ w, tokens_lang [Token (Literal "a") QNone; Token Dot ZeroOrOne;
                              Token (Literal "b") QNone] w
                 ∧ substring w ["a"; LF; "b"]).
Proof.
  apply (unanchored_search_spec ["a"; LF; "b"] (str "a.?b")); reflexivity.
Defined.

(** X6.  A pattern with both anchors matches an input iff one of its lines
    is, as a whole, a word of the compiled pattern (the lines are those of
    splitlines, or the empty line alone when the input is empty). *)
Theorem full_line_match_spec input_line pattern tokens :
  anchor_start pattern = true → anchor_end pattern = true →
  parse_pattern (strip_anchors pattern) = Ret tokens →
  ∃ b, matches input_line pattern = Ret b
       ∧ (b = true
          ↔ ∃ line, line ∈ lines_of input_line ∧ tokens_lang tokens line).
Proof.
  intros Ha He Hp.
  eexists. split; [by rewrite matches_eq, Hp, Ha, He |].
  apply match_result_full.
Qed.

Lemma full_line_match_spec_witness :
  ∃ b, matches ["x"; LF; "a"; "b"] (str "^ab?$") = Ret b
       ∧ (b = true
          ↔ ∃ line, line ∈ lines_of ["x"; LF; "a"; "b"]
                    ∧ tokens_lang [Token (Literal "a") QNone;
                                   Token (Literal "b") ZeroOrOne] line).
Proof.
  apply (full_line_match_spec ["x"; LF; "a"; "b"] (str "^ab?$")); reflexivity.
Defined.

(** X7.  A pattern with one anchor whose compiled sequence is not empty: with
    the start anchor only it matches iff some word of the compiled pattern is
    a prefix of one of the lines of the input, with the end anchor only iff
    some word is a suffix of one of the lines. *)
Theorem one_anchor_match_spec input_line pattern tokens :
  parse_pattern (strip_anchors pattern) = Ret tokens → tokens ≠ [] →
  anchor_start pattern ≠ anchor_end pattern →
  ∃ b, matches input_line pattern = Ret b
       ∧ (b = true
          ↔ ∃ line w, line ∈ lines_of input_line ∧ tokens_lang tokens w
                      ∧ if anchor_start pattern then w `prefix_of` line
                        else w `suffix_of` line).
Proof.
  intros Hp Hne Ha.
  eexists. split; [by rewrite matches_eq, Hp |].
  assert (anchor_end pattern = negb (anchor_start pattern)) as ->.
  { by destruct (anchor_start pattern), (anchor_end pattern). }
  by apply match_result_one_anchor.
Qed.

Lemma one_anchor_match_spec_witness :
  ∃ b, matches ["x"; LF; "a"; "b"] (str "b$") = Ret b
       ∧ (b = true
          ↔ ∃ line w, line ∈ lines_of ["x"; LF; "a"; "b"]
                      ∧ tokens_lang [Token (Literal "b") QNone] w
                      ∧ if anchor_start (str "b$") then w `prefix_of` line
                        else w `suffix_of` line).
Proof.
  apply (one_anchor_match_spec ["x"; LF; "a"; "b"] (str "b$"));
    [reflexivity | discriminate | discriminate].
Defined.

(* ===================================================================== *)
(* Laws of the matcher                                                   *)
(* ===================================================================== *)

Lemma token_lang_quant k quant w :
  token_lang (Token k quant) w
  = quant_lang quant (token_lang (Token k QNone)) w.
Proof. by destruct k. Qed.

Lemma tokens_lang_cons t tokens w :
  tokens_lang (t :: tokens) w
  ↔ ∃ w1 w2, w = w1 ++ w2 ∧ token_lang t w1 ∧ tokens_lang tokens w2.
Proof. done. Qed.

(* one or more: one, or one followed by one or more *)
Lemma plus_unroll (L : list ascii → Prop) w :
  plus L w ↔ L w ∨ ∃ w1 w2, w = w1 ++ w2 ∧ L w1 ∧ plus L w2.
Proof.
  split.
  - induction 1 as [w Hw | w1 w2 _ [IH | (u & v & -> & Hu & Hv)] H2]; [by left | |].
    + right. exists w1, w2. split; [done |]. split; [done | by apply plus_once].
    + right. exists u, (v ++ w2). rewrite <- app_assoc.
      split; [done |]. split; [done | by apply plus_more].
  - intros [Hw | (w1 & w2 & -> & H1 & H2)]; [by apply plus_once |].
    revert w1 H1. induction H2 as [w2 Hw2 | u v _ IH Hv]; intros w1 H1.
    + apply plus_more; [by apply plus_once | done].
    + rewrite app_assoc. apply plus_more; [by apply IH | done].
Qed.

Lemma match_set_ext line s1 s2 pos :
  (∀ w, tokens_lang s1 w ↔ tokens_lang s2 w) →
  match_set line s1 pos = match_set line s2 pos.
Proof.
  intros H. apply set_eq. intros e. rewrite !match_set_lang.
  by apply ends_in_ext.
Qed.

(** X8.  match_from depends on the token sequence only through the words it
    denotes: two sequences with the same words give the same set of end
    positions on every line, from every position. *)
Theorem match_from_respects_lang line s1 s2 pos fuel :
  S (S (length line)) ≤ fuel →
  (∀ w, tokens_lang s1 w ↔ tokens_lang s2 w) →
  match_from fuel line s1 pos = match_from fuel line s2 pos.
Proof.
  intros Hf H. rewrite !match_from_ret by done. f_equal. by apply match_set_ext.
Qed.

Lemma match_from_respects_lang_witness :
  match_from 4 (str "ab") [Token (Literal "a") ZeroOrOne] 0
  = match_from 4 (str "ab")
      [Token (Group [[]; [Token (Literal "a") QNone]]) QNone] 0.
Proof.
  apply (match_from_respects_lang (str "ab") [Token (Literal "a") ZeroOrOne]
           [Token (Group [[]; [Token (Literal "a") QNone]]) QNone] 0 4).
  - simpl. lia.
  - intros w. unfold tokens_lang. simpl.
    repeat setoid_rewrite Exists_cons. setoid_rewrite Exists_nil. split.
    + intros (w1 & w2 & -> & [-> | (ch & -> & Hch)] & ->).
      * exists [], []. split; [done |]. split; [by left | done].
      * exists [ch], []. split; [done |]. split; [| done].
        right. left. exists [ch], []. split; [done |]. split; [by exists ch | done].
    + intros (w1 & w2 & -> & [-> | [(u & v & -> & (ch & -> & Hch) & ->) | []]] & ->).
      * exists [], []. split; [done |]. split; [by left | done].
      * exists [ch], []. split; [done |]. split; [| done].
        right. by exists ch.
Defined.

(** X9.  Alternation distributes over what follows the group: match_from on
    a group without quantifier followed by [tokens] returns the union, over
    the alternatives alt of the group, of what it returns on alt ++ tokens.
    In particular a group with one alternative matches like its contents
    written without the parentheses. *)
Theorem alternation_distributes line alternatives tokens pos fuel :
  S (S (length line)) ≤ fuel →
  (∀ alt, match_from fuel line (alt ++ tokens) pos
          = Ret (match_set line (alt ++ tokens) pos))
  ∧ match_from fuel line (Token (Group alternatives) QNone :: tokens) pos
    = Ret (⋃ ((λ alt, match_set line (alt ++ tokens) pos) <$> alternatives))
  ∧ ∀ alt, match_from fuel line (Token (Group [alt]) QNone :: tokens) pos
           = match_from fuel line (alt ++ tokens) pos.
Proof.
  intros Hf.
  assert (∀ alts, match_set line (Token (Group alts) QNone :: tokens) pos
                  = ⋃ ((λ alt, match_set line (alt ++ tokens) pos) <$> alts))
    as Hdist.
  { intros alts. rewrite match_set_group_none. apply set_eq. intros e.
    rewrite elem_of_bigcup, elem_of_union_list.
    setoid_rewrite elem_of_one_occurrence. setoid_rewrite list_elem_of_fmap.
    split.
    - intros (p & (alt & Hin & Hp) & He).
      exists (match_set line (alt ++ tokens) pos). split; [by eauto |].
      rewrite match_set_app, elem_of_bigcup. eauto.
    - intros (Y & (alt & -> & Hin) & He).
      rewrite match_set_app, elem_of_bigcup in He.
      destruct He as (p & Hp & He). eauto. }
  split; [intros alt; by apply match_from_ret |].
  split; [by rewrite match_from_ret, Hdist |].
  intros alt. rewrite !match_from_ret by done. f_equal.
  rewrite Hdist. simpl. set_solver.
Qed.

Lemma alternation_distributes_witness :
  match_from 5 (str "abc")
    [Token (Group [str "ab" ≫= λ c, [Token (Literal c) QNone]]) QNone;
     Token (Literal "c") QNone] 0
  = match_from 5 (str "abc")
      ((str "ab" ≫= λ c, [Token (Literal c) QNone])
       ++ [Token (Literal "c") QNone]) 0.
Proof.
  apply (alternation_distributes (str "abc")
           [str "ab" ≫= λ c, [Token (Literal c) QNone]]
           [Token (Literal "c") QNone] 0 5).
  simpl. lia.
Defined.

(** X10.  One or more occurrences are one occurrence, or one occurrence
    followed by one or more: for a token or group x, match_from on x+
    followed by [tokens] returns the union of what it returns on x followed
    by [tokens] and on x, x+ followed by [tokens].  So the maximal run that
    is scanned for a token, and the closure computed for a group, find
    exactly the positions of this recursive reading. *)
Theorem one_or_more_unrolls line k tokens pos fuel :
  S (S (length line)) ≤ fuel →
  ∃ once more,
    match_from fuel line (Token k QNone :: tokens) pos = Ret once
    ∧ match_from fuel line (Token k QNone :: Token k OneOrMore :: tokens) pos
      = Ret more
    ∧ match_from fuel line (Token k OneOrMore :: tokens) pos
      = Ret (once ∪ more).
Proof.
  intros Hf. eexists _, _.
  split; [by apply match_from_ret |]. split; [by apply match_from_ret |].
  rewrite match_from_ret by done. f_equal. apply set_eq. intros e.
  rewrite elem_of_union, !match_set_lang. unfold ends_in.
  setoid_rewrite tokens_lang_cons. setoid_rewrite tokens_lang_cons.
  setoid_rewrite (token_lang_quant k OneOrMore). simpl.
  setoid_rewrite plus_unroll at 1. split.
  - intros (w & (w1 & w2 & -> & [H1 | (u & v & -> & Hu & Hv)] & H2) & Hpre & ->).
    + left. exists (w1 ++ w2). split; [| done]. by exists w1, w2.
    + right. exists ((u ++ v) ++ w2). split; [| done].
      exists u, (v ++ w2). rewrite <- app_assoc. split; [done |].
      split; [done |]. by exists v, w2.
  - intros [(w & (w1 & w2 & -> & H1 & H2) & Hpre & ->)
           | (w & (u & w' & -> & Hu & (v & w2 & -> & Hv & H2)) & Hpre & ->)].
    + exists (w1 ++ w2). split; [| done]. exists w1, w2.
      split; [done |]. split; [by left | done].
    + exists (u ++ v ++ w2). split; [| done]. exists (u ++ v), w2.
      rewrite <- app_assoc. split; [done |]. split; [| done].
      right. by exists u, v.
Qed.

Lemma one_or_more_unrolls_witness :
  ∃ once more,
    match_from 5 (str "aab") [Token (Literal "a") QNone] 0 = Ret once
    ∧ match_from 5 (str "aab")
        [Token (Literal "a") QNone; Token (Literal "a") OneOrMore] 0
      = Ret more
    ∧ match_from 5 (str "aab") [Token (Literal "a") OneOrMore] 0
      = Ret (once ∪ more).
Proof.
  apply (one_or_more_unrolls (str "aab") (Literal "a") [] 0 5). simpl. lia.
Defined.

(* ===================================================================== *)
(* The compiler: termination and errors                                  *)
(* ===================================================================== *)

Lemma parse_atom_progress pattern fuel i c k j :
  pattern !! i = Some c → length pattern - (i + 1) < fuel →
  parse_atom (λ j, parse_alternatives fuel pattern (Some ")") j [] [])
    pattern i c = Ret (k, j) →
  i < j ≤ length pattern.
Proof.
  intros Hc Hf. apply lookup_lt_Some in Hc as Hlt. unfold parse_atom.
  repeat case_decide.
  - intros [= Hres]. by apply parse_escape_progress in Hres as [_ ?].
  - intros Hres. by apply parse_class_progress in Hres as [_ ?].
  - intros [= <- <-]. lia.
  - intros ([inner j0] & Hin & [= <- <-])%bind_Ret.
    apply parse_alternatives_progress in Hin; [| lia | lia]. lia.
  - intros [= <- <-]. lia.
Qed.

Lemma parse_alternatives_bar fuel pattern end_char i alts seq :
  pattern !! i = Some "|" → end_char ≠ Some "|" →
  parse_alternatives (S fuel) pattern end_char i alts seq
  = parse_alternatives fuel pattern end_char (i + 1) (alts ++ [seq]) [].
Proof. intros Hc Hec. simpl. by rewrite Hc, decide_False, decide_True. Qed.

Lemma parse_alternatives_close fuel pattern c i alts seq :
  pattern !! i = Some c →
  parse_alternatives (S fuel) pattern (Some c) i alts seq
  = Ret (alts ++ [seq], i + 1).
Proof. intros Hc. simpl. by rewrite Hc, decide_True. Qed.

(* More fuel than length - i + 1 at index i does not change the result. *)
Lemma parse_alternatives_fuel pattern fuel fuel' end_char i alts seq :
  length pattern - i < fuel → fuel ≤ fuel' →
  parse_alternatives fuel' pattern end_char i alts seq
  = parse_alternatives fuel pattern end_char i alts seq.
Proof.
  revert fuel' end_char i alts seq.
  induction fuel as [| fuel IH]; intros fuel' end_char i alts seq Hf Hle; [lia |].
  destruct fuel' as [| fuel']; [lia |].
  destruct (pattern !! i) as [c |] eqn:Hc.
  2:{ simpl. by rewrite Hc. }
  apply lookup_lt_Some in Hc as Hlt.
  destruct (decide (end_char = Some c)) as [-> | Hec].
  { by rewrite !parse_alternatives_close. }
  destruct (decide (c = "|")) as [-> | Hbar].
  { rewrite !parse_alternatives_bar by done. apply IH; lia. }
  rewrite !(parse_alternatives_step _ _ _ _ _ _ c) by done.
  assert (parse_atom (λ j, parse_alternatives fuel' pattern (Some ")") j [] [])
            pattern i c
          = parse_atom (λ j, parse_alternatives fuel pattern (Some ")") j [] [])
              pattern i c) as ->.
  { unfold parse_atom. repeat case_decide; try done.
    rewrite IH by lia. done. }
  destruct (parse_atom _ pattern i c) as [[k j] | e |] eqn:Hatom; [| done | done].
  apply parse_atom_progress in Hatom; [| done | lia].
  simpl. destruct (parse_quant pattern j) as [quant j'] eqn:Hq.
  apply parse_quant_progress in Hq as (Hq & _). apply IH; lia.
Qed.

(* The top-level call returns at the end of the pattern. *)
Lemma parse_alternatives_end pattern fuel i alts seq r j :
  parse_alternatives fuel pattern None i alts seq = Ret (r, j) →
  length pattern ≤ j.
Proof.
  revert i alts seq. induction fuel as [| fuel IH]; intros i alts seq; [done |].
  destruct (pattern !! i) as [c |] eqn:Hc.
  2:{ simpl. rewrite Hc. intros [= <- <-]. by apply lookup_ge_None in Hc. }
  destruct (decide (c = "|")) as [-> | Hbar].
  { rewrite parse_alternatives_bar by done. apply IH. }
  rewrite (parse_alternatives_step _ _ _ _ _ _ c) by done.
  intros ([k j0] & Hatom & Hr)%bind_Ret.
  destruct (parse_quant pattern j0) as [quant j']. by apply IH in Hr.
Qed.

(** X11.  The compiler terminates on every pattern: every round of its loop
    and every nested call advances the index, so a bound of length + 1 on
    the successive evaluations of the loop head is never reached; the
    compiler returns a token sequence or raises an error, a larger bound
    gives the same result, and on success the call for the top level has
    consumed the whole pattern. *)
Theorem compiler_terminates pattern :
  ((∃ tokens, parse_pattern pattern = Ret tokens)
   ∨ ∃ e, parse_pattern pattern = Raise e)
  ∧ (∀ fuel, S (length pattern) ≤ fuel →
       parse_alternatives fuel pattern None 0 [] []
       = parse_alternatives (S (length pattern)) pattern None 0 [] [])
  ∧ ∀ alts idx,
      parse_alternatives (S (length pattern)) pattern None 0 [] []
      = Ret (alts, idx) →
      idx = length pattern.
Proof.
  split; [| split].
  - pose proof (parse_pattern_total pattern).
    destruct (parse_pattern pattern); [left | right |]; by eauto.
  - intros fuel Hf. apply parse_alternatives_fuel; lia.
  - intros alts idx H. apply parse_alternatives_end in H as Hge.
    apply parse_alternatives_progress in H; lia.
Qed.

Lemma compiler_terminates_witness :
  parse_alternatives 40 (str "(a|b)+c") None 0 [] []
  = parse_alternatives (S (length (str "(a|b)+c"))) (str "(a|b)+c") None 0 [] [].
Proof.
  apply (proj1 (proj2 (compiler_terminates (str "(a|b)+c"))) 40). simpl. lia.
Defined.

Lemma parse_alternatives_no_class pattern fuel end_char i alts seq :
  (∀ i, pattern !! i ≠ Some "[") →
  parse_alternatives fuel pattern end_char i alts seq ≠ Raise UnterminatedClass.
Proof.
  intros Hclass. revert end_char i alts seq.
  induction fuel as [| fuel IH]; intros end_char i alts seq; [done |].
  destruct (pattern !! i) as [c |] eqn:Hc.
  2:{ simpl. rewrite Hc. by destruct end_char. }
  destruct (decide (end_char = Some c)) as [-> | Hec].
  { by rewrite parse_alternatives_close. }
  destruct (decide (c = "|")) as [-> | Hbar].
  { rewrite parse_alternatives_bar by done. apply IH. }
  rewrite (parse_alternatives_step _ _ _ _ _ _ c) by done.
  assert (parse_atom (λ j, parse_alternatives fuel pattern (Some ")") j [] [])
            pattern i c ≠ Raise UnterminatedClass) as Hatom.
  { unfold parse_atom. repeat case_decide; try done.
    - subst. by destruct (Hclass i).
    - specialize (IH (Some ")") (i + 1) [] []).
      destruct (parse_alternatives fuel pattern (Some ")") (i + 1) [] [])
        as [[inner j0] | e |]; simpl; congruence. }
  destruct (parse_atom _ pattern i c) as [[k j] | e |]; simpl;
    [| intros [= ->]; by apply Hatom | done].
  destruct (parse_quant pattern j) as [quant j']. apply IH.
Qed.

Lemma parse_alternatives_no_group pattern fuel i alts seq :
  (∀ i, pattern !! i ≠ Some "(") →
  parse_alternatives fuel pattern None i alts seq ≠ Raise UnterminatedGroup.
Proof.
  intros Hgroup. revert i alts seq.
  induction fuel as [| fuel IH]; intros i alts seq; [done |].
  destruct (pattern !! i) as [c |] eqn:Hc.
  2:{ simpl. by rewrite Hc. }
  destruct (decide (c = "|")) as [-> | Hbar].
  { rewrite parse_alternatives_bar by done. apply IH. }
  rewrite (parse_alternatives_step _ _ _ _ _ _ c) by done.
  assert (∀ e, parse_atom (λ j, parse_alternatives fuel pattern (Some ")") j [] [])
                 pattern i c = Raise e → e = UnterminatedClass) as Hatom.
  { intros e. unfold parse_atom. repeat case_decide; try done.
    - unfold parse_class. destruct (find _ _ _); [| by intros [= <-]].
      simpl. by destruct (startswith _ _).
    - subst. by destruct (Hgroup i). }
  destruct (parse_atom _ pattern i c) as [[k j] | e |]; simpl; [| | done].
  - destruct (parse_quant pattern j) as [quant j']. apply IH.
  - intros [= He]. by specialize (Hatom e eq_refl) as ->.
Qed.

(** X12.  Errors come from brackets and parentheses only: compiling a
    pattern without any [ never fails with UnterminatedClass, compiling a
    pattern without any ( never fails with UnterminatedGroup, and a pattern
    with neither always compiles. *)
Theorem compile_errors_need_brackets pattern :
  ("[" ∉ pattern → parse_pattern pattern ≠ Raise UnterminatedClass)
  ∧ ("(" ∉ pattern → parse_pattern pattern ≠ Raise UnterminatedGroup)
  ∧ ("[" ∉ pattern → "(" ∉ pattern → ∃ tokens, parse_pattern pattern = Ret tokens).
Proof.
  assert (∀ c, c ∉ pattern → ∀ i, pattern !! i ≠ Some c) as Hnot.
  { intros c Hc i Hi. apply Hc. by eapply list_elem_of_lookup_2. }
  assert ("[" ∉ pattern → parse_pattern pattern ≠ Raise UnterminatedClass) as H1.
  { intros Hc. pose proof (Hnot _ Hc) as Hi. unfold parse_pattern.
    pose proof (parse_alternatives_no_class pattern (S (length pattern)) None 0
                  [] [] Hi).
    destruct (parse_alternatives _ _ _ _ _ _) as [[alts idx] | e |];
      simpl; [| congruence | done].
    by destruct alts as [| ? [|]]. }
  assert ("(" ∉ pattern → parse_pattern pattern ≠ Raise UnterminatedGroup) as H2.
  { intros Hc. pose proof (Hnot _ Hc) as Hi. unfold parse_pattern.
    pose proof (parse_alternatives_no_group pattern (S (length pattern)) 0
                  [] [] Hi).
    destruct (parse_alternatives _ _ _ _ _ _) as [[alts idx] | e |];
      simpl; [| congruence | done].
    by destruct alts as [| ? [|]]. }
  split; [done |]. split; [done |].
  intros Hc Hg. specialize (H1 Hc). specialize (H2 Hg).
  pose proof (parse_pattern_total pattern).
  destruct (parse_pattern pattern) as [tokens | [] |]; by eauto.
Qed.

Lemma compile_errors_need_brackets_witness :
  ∃ tokens, parse_pattern (str "a)]+|\d?") = Ret tokens.
Proof.
  apply (proj2 (proj2 (compile_errors_need_brackets (str "a)]+|\d?"))));
    apply (bool_decide_unpack _); by vm_compute.
Defined.

(* ===================================================================== *)
(* Patterns that are compiled to literals                                *)
(* ===================================================================== *)

Lemma parse_atom_plain parse_group pattern i c :
  c ∉ special → parse_atom parse_group pattern i c = Ret (Literal c, i + 1).
Proof.
  intros Hc. unfold parse_atom.
  rewrite !decide_False; [done | ..]; intros ->; apply Hc; metachar.
Qed.

Lemma parse_quant_none pattern j :
  pattern !! j ≠ Some "+" → pattern !! j ≠ Some "?" →
  parse_quant pattern j = (QNone, j).
Proof.
  intros H1 H2. unfold parse_quant. destruct (pattern !! j) as [c |]; [| done].
  rewrite !decide_False; [done | ..]; congruence.
Qed.

(* A run of k characters that are compiled to literals, not followed by a
   quantifier. *)
Lemma parse_literal_run pattern end_char k :
  ∀ fuel i alts seq,
    (∀ m, m < k → ∃ c, pattern !! (i + m) = Some c ∧ (c ∉ special)
                       ∧ (end_char ≠ Some c)) →
    pattern !! (i + k) ≠ Some "+" → pattern !! (i + k) ≠ Some "?" →
    parse_alternatives (k + fuel) pattern end_char i alts seq
    = parse_alternatives fuel pattern end_char (i + k) alts
        (seq ++ literals (take k (drop i pattern))).
Proof.
  induction k as [| k IH]; intros fuel i alts seq Hrun Hq1 Hq2.
  - by rewrite Nat.add_0_r, take_0, app_nil_r.
  - destruct (Hrun 0) as (c & Hc & Hsp & Hec); [lia |].
    rewrite Nat.add_0_r in Hc.
    change (S k + fuel) with (S (k + fuel)).
    rewrite (parse_alternatives_step _ _ _ _ _ _ c);
      [| done | done | intros ->; apply Hsp; metachar].
    rewrite parse_atom_plain by done.
    change (Ret (Literal c, i + 1) ≫= ?f) with (f (Literal c, i + 1)).
    cbv beta iota.
    assert (pattern !! (i + 1) ≠ Some "+" ∧ pattern !! (i + 1) ≠ Some "?")
      as [Hn1 Hn2].
    { destruct k as [| k']; [done |].
      destruct (Hrun 1) as (c' & Hc' & Hsp' & _); [lia |]. rewrite Hc'.
      split; intros [= ->]; apply Hsp'; metachar. }
    rewrite parse_quant_none by done.
    rewrite IH.
    + replace (i + 1 + k) with (i + S k) by lia.
      rewrite (drop_S _ _ _ Hc), Nat.add_1_r. simpl. by rewrite <- app_assoc.
    + intros m Hm. replace (i + 1 + m) with (i + S m) by lia. apply Hrun. lia.
    + by replace (i + 1 + k) with (i + S k) by lia.
    + by replace (i + 1 + k) with (i + S k) by lia.
Qed.

Lemma plain_lookup pattern i c :
  plain pattern = true → pattern !! i = Some c → c ∉ special.
Proof.
  intros Hl Hc. unfold plain in Hl. rewrite forallb_forall in Hl.
  specialize (Hl c). rewrite negb_true_iff, bool_decide_eq_false in Hl.
  apply Hl. apply list_elem_of_In. by eapply list_elem_of_lookup_2.
Qed.

Lemma parse_pattern_plain pattern :
  plain pattern = true → parse_pattern pattern = Ret (literals pattern).
Proof.
  intros Hl. unfold parse_pattern.
  replace (S (length pattern)) with (length pattern + 1) by lia.
  rewrite parse_literal_run.
  - simpl. rewrite lookup_ge_None_2 by lia. simpl.
    by rewrite drop_0, firstn_all.
  - intros m Hm. destruct (lookup_lt_is_Some_2 pattern m Hm) as [c Hc].
    exists c. split; [done |]. split; [by eapply plain_lookup | done].
  - by rewrite lookup_ge_None_2 by (simpl; lia).
  - by rewrite lookup_ge_None_2 by (simpl; lia).
Qed.

Lemma tokens_lang_literals p w : tokens_lang (literals p) w ↔ w = p.
Proof.
  revert w. induction p as [| c p IH]; intros w; [done |].
  change (literals (c :: p)) with (Token (Literal c) QNone :: literals p).
  rewrite tokens_lang_cons. setoid_rewrite IH. simpl. split.
  - by intros (w1 & w2 & -> & (ch & -> & ->%bool_decide_eq_true) & ->).
  - intros ->. exists [c], p. split; [done |]. split; [| done].
    exists c. split; [done |]. by apply bool_decide_eq_true.
Qed.

(** X13.  The characters with a meaning for the compiler are \ [ . ( | + ?
    only: a pattern without any of them that does not start with ^ nor end
    with $ compiles to one literal token for each of its characters (so the
    characters ] and ), and ^ and $ inside the pattern, stand for themselves),
    and it matches an input iff it is a contiguous part of the input. *)
Theorem plain_pattern_spec input_line pattern :
  plain pattern = true →
  anchor_start pattern = false → anchor_end pattern = false →
  parse_pattern pattern = Ret (literals pattern)
  ∧ ∃ b, matches input_line pattern = Ret b
         ∧ (b = true ↔ substring pattern input_line).
Proof.
  intros Hl Ha He. pose proof (parse_pattern_plain _ Hl) as Hp.
  split; [done |].
  assert (strip_anchors pattern = pattern) as Hs.
  { unfold strip_anchors, strip_start. by rewrite He, Ha. }
  eexists. split; [by rewrite matches_eq, Hs, Hp, Ha, He |].
  rewrite match_result_search. setoid_rewrite tokens_lang_literals.
  naive_solver.
Qed.

Lemma plain_pattern_spec_witness :
  parse_pattern (str "a)^$]b") = Ret (literals (str "a)^$]b"))
  ∧ ∃ b, matches ("x" :: LF :: str "a)^$]b") (str "a)^$]b") = Ret b
         ∧ (b = true ↔ substring (str "a)^$]b") ("x" :: LF :: str "a)^$]b")).
Proof.
  apply (plain_pattern_spec ("x" :: LF :: str "a)^$]b") (str "a)^$]b"));
    reflexivity.
Defined.

Lemma special_metachar c : c ∈ special → c ∈ metachars.
Proof.
  unfold special, str. simpl. intros H.
  repeat (apply elem_of_cons in H as [-> | H]; [metachar |]).
  by apply elem_of_nil in H.
Qed.

Lemma find_from_first c s1 s2 i :
  c ∉ s1 → find_from c (s1 ++ c :: s2) i = Some (i + length s1).
Proof.
  revert i. induction s1 as [| x s1 IH]; intros i Hc; simpl.
  - rewrite decide_True by done. f_equal. lia.
  - apply not_elem_of_cons in Hc as [Hx Hc].
    rewrite decide_False by done. rewrite IH by done. f_equal. lia.
Qed.

(* The pattern "p\" for literal characters p. *)
Lemma parse_pattern_trailing_backslash p :
  literal_only p = true →
  parse_pattern (p ++ ["\"]) = Ret (literals (p ++ ["\"])).
Proof.
  intros Hl. unfold parse_pattern.
  replace (S (length (p ++ ["\"]))) with (length p + 2)
    by (rewrite length_app; simpl; lia).
  rewrite parse_literal_run.
  - assert ((p ++ ["\"]) !! (0 + length p) = Some "\") as Hc
      by (by rewrite lookup_app_r, Nat.sub_diag by (simpl; lia)).
    rewrite (parse_alternatives_step _ _ _ _ _ _ "\") by done.
    unfold parse_atom, parse_escape. simpl.
    rewrite (lookup_ge_None_2 _ (length p + 1))
      by (rewrite length_app; simpl; lia).
    simpl. unfold parse_quant.
    rewrite (lookup_ge_None_2 _ (length p + 1))
      by (rewrite length_app; simpl; lia).
    rewrite (lookup_ge_None_2 _ (length p + 1))
      by (rewrite length_app; simpl; lia).
    simpl. rewrite drop_0, take_app_length. unfold literals.
    by rewrite fmap_app.
  - intros m Hm. destruct (lookup_lt_is_Some_2 p m Hm) as [c Hc].
    exists c. simpl. rewrite lookup_app_l by done. split; [done |].
    split; [| done]. intros Hsp%special_metachar.
    by apply (literal_only_lookup _ _ _ Hl Hc).
  - by rewrite lookup_app_r, Nat.sub_diag by (simpl; lia).
  - by rewrite lookup_app_r, Nat.sub_diag by (simpl; lia).
Qed.

(** X14.  A $ at the end of the pattern is the end anchor even when a
    backslash precedes it: for literal characters p, the pattern p\$ does not
    search for p followed by a dollar sign; its end anchor is set, it
    compiles to the literals of p followed by a literal backslash, and it
    matches iff some line of the input ends with p\.  So "a\$" matches the
    input a\ and does not match the input a$. *)
Theorem escaped_dollar_is_anchor input_line p :
  literal_only p = true →
  anchor_end (p ++ ["\"; "$"]) = true
  ∧ parse_pattern (strip_anchors (p ++ ["\"; "$"])) = Ret (literals (p ++ ["\"]))
  ∧ ∃ b, matches input_line (p ++ ["\"; "$"]) = Ret b
         ∧ (b = true
            ↔ ∃ line, line ∈ lines_of input_line
                      ∧ (p ++ ["\"]) `suffix_of` line).
Proof.
  intros Hl.
  assert (anchor_start (p ++ ["\"; "$"]) = false) as Ha.
  { destruct p as [| c p]; [done |]. apply (literal_only_anchors _ Hl). }
  assert (p ++ ["\"; "$"] = (p ++ ["\"]) ++ ["$"]) as Heq
    by (by rewrite <- app_assoc).
  assert (anchor_end (p ++ ["\"; "$"]) = true) as He.
  { unfold anchor_end, strip_start, endswith. rewrite Ha, Heq.
    by rewrite last_snoc. }
  assert (strip_anchors (p ++ ["\"; "$"]) = p ++ ["\"]) as Hs.
  { unfold strip_anchors, strip_start. rewrite He, Ha, Heq.
    apply removelast_last. }
  pose proof (parse_pattern_trailing_backslash _ Hl) as Hp.
  split; [done |]. split; [by rewrite Hs |].
  eexists. split; [by rewrite matches_eq, Hs, Hp, Ha, He |].
  rewrite (match_result_one_anchor _ false) by (by destruct p).
  setoid_rewrite tokens_lang_literals. naive_solver.
Qed.

Lemma escaped_dollar_is_anchor_witness :
  ∃ b, matches (str "xa\") (str "a" ++ ["\"; "$"]) = Ret b
       ∧ (b = true
          ↔ ∃ line, line ∈ lines_of (str "xa\")
                    ∧ (str "a" ++ ["\"]) `suffix_of` line).
Proof.
  apply (escaped_dollar_is_anchor (str "xa\") (str "a")). reflexivity.
Defined.

Lemma parse_alternatives_eof fuel pattern i alts seq :
  pattern !! i = None →
  parse_alternatives (S fuel) pattern None i alts seq = Ret (alts ++ [seq], i).
Proof. intros Hc. simpl. by rewrite Hc. Qed.

(* The pattern "[content]". *)
Lemma parse_pattern_class content :
  "]" ∉ content →
  parse_pattern ("[" :: content ++ ["]"])
  = Ret [Token (Class (list_to_set (if startswith "^" content
                                    then drop 1 content else content))
                  (startswith "^" content)) QNone].
Proof.
  intros Hc. set (pattern := "[" :: content ++ ["]"]).
  assert (length pattern = S (S (length content))) as Hlen.
  { unfold pattern. simpl. rewrite length_app. simpl. lia. }
  assert (parse_class pattern 0
          = Ret (Class (list_to_set (if startswith "^" content
                                     then drop 1 content else content))
                   (startswith "^" content), length pattern)) as Hclass.
  { unfold parse_class, find.
    change (drop (0 + 1) pattern) with (content ++ ["]"]).
    rewrite find_from_first by done. cbv zeta. unfold slice.
    change (drop (0 + 1) pattern) with (content ++ ["]"]).
    replace (0 + 1 + length content - (0 + 1)) with (length content) by lia.
    rewrite take_app_length, Hlen.
    replace (0 + 1 + length content + 1) with (S (S (length content))) by lia.
    by destruct (startswith "^" content). }
  assert (pattern !! length pattern = None) as Hend
    by (by apply lookup_ge_None_2).
  unfold parse_pattern. rewrite Hlen at 1.
  rewrite (parse_alternatives_step _ _ _ _ _ _ "[") by done.
  change (parse_atom _ pattern 0 "[") with (parse_class pattern 0).
  rewrite Hclass.
  change (Ret (?k, ?j) ≫= ?f) with (f (k, j)). cbv beta iota.
  rewrite parse_quant_none by (by rewrite Hend).
  by rewrite parse_alternatives_eof.
Qed.

Lemma tokens_lang_single_atom k w :
  is_group k = false →
  tokens_lang [Token k QNone] w
  ↔ ∃ ch, w = [ch] ∧ token_matches_char (Token k QNone) ch = true.
Proof.
  intros Hk. rewrite tokens_lang_cons.
  setoid_rewrite (token_lang_atom k QNone _ Hk). simpl. split.
  - intros (w1 & w2 & -> & (ch & -> & Hch) & ->). by exists ch.
  - intros (ch & -> & Hch). exists [ch], []. split; [done |].
    split; [by exists ch | done].
Qed.

Lemma substring_singleton (ch : ascii) l : substring [ch] l ↔ ch ∈ l.
Proof.
  split.
  - intros (pre & post & ->). set_solver.
  - intros (l1 & l2 & ->)%list_elem_of_split. by exists l1, l2.
Qed.

(** X15.  A pattern that is one character class, [content] with no ] in
    content, compiles to a single Class token: the set of the characters of
    content, taken as they are (no escape is processed inside a class), or,
    when content starts with ^, the negated set of the characters after it.
    It matches an input iff the input contains a character of content or,
    negated, a character that is none of those after the ^.  So "[]"
    matches no input. *)
Theorem class_pattern_spec input_line content :
  "]" ∉ content →
  parse_pattern ("[" :: content ++ ["]"])
  = Ret [Token (Class (list_to_set (if startswith "^" content
                                    then drop 1 content else content))
                  (startswith "^" content)) QNone]
  ∧ ∃ b, matches input_line ("[" :: content ++ ["]"]) = Ret b
         ∧ (b = true
            ↔ ∃ ch, ch ∈ input_line
                    ∧ if startswith "^" content then ch ∉ drop 1 content
                      else ch ∈ content).
Proof.
  intros Hc. pose proof (parse_pattern_class _ Hc) as Hp. split; [done |].
  assert (anchor_start ("[" :: content ++ ["]"]) = false) as Ha by done.
  assert (anchor_end ("[" :: content ++ ["]"]) = false) as He.
  { unfold anchor_end, strip_start, endswith. rewrite Ha.
    by rewrite app_comm_cons, last_snoc. }
  assert (strip_anchors ("[" :: content ++ ["]"]) = "[" :: content ++ ["]"])
    as Hs.
  { unfold strip_anchors, strip_start. by rewrite He, Ha. }
  eexists. split; [by rewrite matches_eq, Hs, Hp, Ha, He |].
  rewrite match_result_search.
  setoid_rewrite tokens_lang_single_atom; [| done]. simpl. split.
  - intros (w & (ch & -> & Hch) & Hsub%substring_singleton).
    exists ch. split; [done |].
    destruct (startswith "^" content); apply bool_decide_eq_true in Hch;
      by rewrite elem_of_list_to_set in Hch.
  - intros (ch & Hin & Hch). exists [ch].
    split; [| by apply substring_singleton]. exists ch. split; [done |].
    destruct (startswith "^" content); apply bool_decide_eq_true;
      by rewrite elem_of_list_to_set.
Qed.

Lemma class_pattern_spec_witness :
  ∃ b, matches (str "x\y") ("[" :: str "\d" ++ ["]"]) = Ret b
       ∧ (b = true
          ↔ ∃ ch, ch ∈ str "x\y"
                  ∧ if startswith "^" (str "\d") then ch ∉ drop 1 (str "\d")
                    else ch ∈ str "\d").
Proof.
  apply (class_pattern_spec (str "x\y") (str "\d")).
  apply (bool_decide_unpack _). by vm_compute.
Defined.

(* ===================================================================== *)
(* The command line                                                      *)
(* ===================================================================== *)

Lemma match_pattern_fuel fuel input_line pattern :
  S (S (length input_line)) ≤ fuel →
  match_pattern fuel input_line pattern = matches input_line pattern.
Proof.
  intros Hf. rewrite matches_eq.
  destruct (parse_pattern (strip_anchors pattern)) as [tokens | e |] eqn:Hp.
  - by apply match_pattern_ret.
  - by rewrite match_pattern_unfold, Hp.
  - by destruct (parse_pattern_total (strip_anchors pattern)).
Qed.

(** X16.  main exits with status 2, after printing the usage line, iff it
    is given fewer than three arguments; otherwise, when the first argument
    is not -E, it prints a message and exits with status 1; otherwise it
    prints nothing and exits with status 0 when the pattern argv[2] matches
    the input and with status 1 when it does not, and an error of the
    compiler is not caught.  So status 0 means exactly: -E was given and the
    pattern matches the input. *)
Theorem main_exit_status fuel argv stdin :
  S (S (length stdin)) ≤ fuel →
  (length argv < 3
   → main fuel argv stdin
     = Ret ([str "Usage: ./your_program.sh -E <pattern>"], 2))
  ∧ (3 ≤ length argv → argv !! 1 ≠ Some (str "-E")
     → main fuel argv stdin
       = Ret ([str "Expected first argument to be '-E'"], 1))
  ∧ (∀ pattern,
       argv !! 1 = Some (str "-E") → argv !! 2 = Some pattern →
       main fuel argv stdin
       = (found ← matches stdin pattern;
          Ret ([], if found : bool then 0 else 1)))
  ∧ (∀ out,
       main fuel argv stdin = Ret (out, 0)
       ↔ out = [] ∧ argv !! 1 = Some (str "-E")
         ∧ ∃ pattern, argv !! 2 = Some pattern
                      ∧ matches stdin pattern = Ret true)
  ∧ (∀ out,
       main fuel argv stdin = Ret (out, 2)
       ↔ out = [str "Usage: ./your_program.sh -E <pattern>"]
         ∧ length argv < 3).
Proof.
  intros Hf.
  assert (∀ pattern,
            argv !! 1 = Some (str "-E") → argv !! 2 = Some pattern →
            main fuel argv stdin
            = (found ← matches stdin pattern;
               Ret ([], if found : bool then 0 else 1))) as Hrun.
  { intros pattern H1 H2. unfold main.
    apply lookup_lt_Some in H2 as Hlen.
    rewrite decide_False by lia.
    rewrite decide_False by (by intros []).
    rewrite (list_lookup_total_correct _ _ _ H2).
    cbv zeta. rewrite match_pattern_fuel by done.
    destruct (matches stdin pattern) as [[] | |]; done. }
  split; [| split; [| split; [done | split]]].
  - intros Hlen. unfold main. by rewrite decide_True.
  - intros Hlen H1. unfold main.
    rewrite decide_False by lia. by rewrite decide_True.
  - intros out. split.
    + intros Hm. destruct (decide (length argv < 3)) as [Hlen | Hlen].
      { unfold main in Hm. by rewrite decide_True in Hm. }
      destruct (decide (argv !! 1 ≠ Some (str "-E"))) as [H1 | H1].
      { unfold main in Hm. rewrite decide_False, decide_True in Hm; done. }
      apply dec_stable in H1.
      destruct (lookup_lt_is_Some_2 argv 2) as [pattern H2]; [lia |].
      rewrite (Hrun pattern H1 H2) in Hm.
      destruct (matches stdin pattern) as [[] | |] eqn:Hmatch; simplify_eq/=.
      split; [done |]. split; [done |]. by exists pattern.
    + intros (-> & H1 & pattern & H2 & Hmatch).
      by rewrite (Hrun pattern H1 H2), Hmatch.
  - intros out. split.
    + intros Hm. destruct (decide (length argv < 3)) as [Hlen | Hlen].
      { unfold main in Hm. rewrite decide_True in Hm by done. by simplify_eq. }
      destruct (decide (argv !! 1 ≠ Some (str "-E"))) as [H1 | H1].
      { unfold main in Hm. rewrite decide_False, decide_True in Hm; done. }
      apply dec_stable in H1.
      destruct (lookup_lt_is_Some_2 argv 2) as [pattern H2]; [lia |].
      rewrite (Hrun pattern H1 H2) in Hm.
      destruct (matches stdin pattern) as [[] | |]; simplify_eq/=.
    + intros [-> Hlen]. unfold main. by rewrite decide_True.
Qed.

Lemma main_exit_status_witness :
  main 5 [str "prog"; str "-E"; str "a+b"] (str "aab")
  = (found ← matches (str "aab") (str "a+b");
     Ret ([], if found : bool then 0 else 1)).
Proof.
  apply (proj1 (proj2 (proj2 (main_exit_status 5
           [str "prog"; str "-E"; str "a+b"] (str "aab") ltac:(simpl; lia)))));
    reflexivity.
Defined.

(* ===================================================================== *)
(* Escapes on ASCII characters                                           *)
(* ===================================================================== *)

Lemma in_range_spec lo hi ch :
  in_range lo hi ch = true ↔ lo ≤ nat_of_ascii ch ≤ hi.
Proof.
  unfold in_range. rewrite andb_true_iff, !Nat.leb_le. done.
Qed.

(** X17.  On the ASCII characters (code below 128), the token of \d accepts
    exactly the digits 0-9, and the token of \w exactly the letters A-Z and
    a-z, the digits 0-9 and the underscore. *)
Theorem ascii_escapes_spec ch :
  nat_of_ascii ch < 128 →
  (token_matches_char (Token Digit QNone) ch = true
   ↔ 48 ≤ nat_of_ascii ch ≤ 57)
  ∧ (token_matches_char (Token Word QNone) ch = true
     ↔ 48 ≤ nat_of_ascii ch ≤ 57 ∨ 65 ≤ nat_of_ascii ch ≤ 90
       ∨ 97 ≤ nat_of_ascii ch ≤ 122 ∨ ch = "_").
Proof.
  intros Hascii.
  change (token_matches_char (Token Digit QNone) ch) with (isdigit ch).
  change (token_matches_char (Token Word QNone) ch)
    with (isalnum ch || bool_decide (ch = "_")).
  unfold isalnum, isdigit.
  rewrite !orb_true_iff, !in_range_spec, bool_decide_eq_true.
  split; [lia |]. split; [| intuition lia].
  intros [H | H]; [lia | by repeat right].
Qed.

Lemma ascii_escapes_spec_witness :
  token_matches_char (Token Word QNone) "_" = true
  ↔ 48 ≤ nat_of_ascii "_" ≤ 57 ∨ 65 ≤ nat_of_ascii "_" ≤ 90
    ∨ 97 ≤ nat_of_ascii "_" ≤ 122 ∨ "_" = "_".
Proof.
  apply (proj2 (ascii_escapes_spec "_" ltac:(vm_compute; lia))).
Defined.

(* ===================================================================== *)
(* The lines that are tested                                             *)
(* ===================================================================== *)

Lemma single_line_app s1 s2 :
  single_line (s1 ++ s2) = single_line s1 && single_line s2.
Proof. unfold single_line. apply forallb_app. Qed.

Lemma splitlines_from_single_line n s cur line :
  length s ≤ n → single_line (reverse cur) = true →
  line ∈ splitlines_from cur s → single_line line = true.
Proof.
  revert s cur. induction n as [| n IH]; intros [| ch s] cur Hn Hcur;
    simpl in *; try lia.
  - destruct cur; [by intros ?%elem_of_nil |].
    by intros ->%list_elem_of_singleton.
  - destruct cur; [by intros ?%elem_of_nil |].
    by intros ->%list_elem_of_singleton.
  - destruct (is_linebreak ch) eqn:Hch.
    + intros [-> | Hin]%elem_of_cons; [done |].
      destruct s as [| ch' s'].
      * by apply elem_of_nil in Hin.
      * destruct (decide (ch = CR ∧ ch' = LF)).
        -- apply (IH s' []) in Hin; [done | simpl in *; lia | done].
        -- apply (IH (ch' :: s') []) in Hin; [done | simpl in *; lia | done].
    + intros Hin. apply (IH s (ch :: cur)) in Hin; [done | lia |].
      rewrite reverse_cons, single_line_app, Hcur. simpl. by rewrite Hch.
Qed.

Lemma splitlines_nonempty s : s ≠ [] → splitlines s ≠ [].
Proof.
  unfold splitlines. assert (∀ s cur, s ≠ [] ∨ cur ≠ [] →
                               splitlines_from cur s ≠ []) as H.
  { clear s. induction s as [| ch s IH]; intros cur Hne; simpl.
    - destruct cur; [by destruct Hne | done].
    - destruct (is_linebreak ch); [done |]. apply IH. by right. }
  intros Hne. apply H. by left.
Qed.

(** X18.  The lines match_pattern tests for a non-empty compiled pattern:
    there is always at least one (the empty input is tested as one empty
    line), each of them is a contiguous part of the input and contains no
    line boundary, and an input without line boundary that is not empty is
    tested as the single line it is. *)
Theorem tested_lines_spec input_line :
  lines_of input_line ≠ []
  ∧ (∀ line, line ∈ lines_of input_line →
             substring line input_line ∧ single_line line = true)
  ∧ (single_line input_line = true → lines_of input_line = [input_line]).
Proof.
  split; [| split].
  - unfold lines_of. destruct input_line as [| ch s]; [done |].
    rewrite andb_false_r. by apply splitlines_nonempty.
  - intros line Hin. split; [by apply lines_of_substring |].
    unfold lines_of in Hin. destruct (_ && _).
    + by apply list_elem_of_singleton in Hin as ->.
    + by apply (splitlines_from_single_line (length input_line)) in Hin.
  - apply lines_of_single.
Qed.

Lemma tested_lines_spec_witness : lines_of (str "abc") = [str "abc"].
Proof.
  apply (proj2 (proj2 (tested_lines_spec (str "abc")))). reflexivity.
Defined.

(* ===================================================================== *)
(* Alternations of literals                                              *)
(* ===================================================================== *)

Lemma literal_only_plain_lookup p m c :
  literal_only p = true → p !! m = Some c → c ∉ special.
Proof.
  intros Hl Hc Hsp%special_metachar. by apply (literal_only_lookup _ _ _ Hl Hc).
Qed.

Lemma parse_alternation ps :
  ∀ p pre alts fuel,
    literal_only p = true → Forall (λ q, literal_only q = true) ps →
    length (alternation p ps) < fuel →
    parse_alternatives fuel (pre ++ alternation p ps) None (length pre) alts []
    = Ret (alts ++ literals p :: (literals <$> ps),
           length (pre ++ alternation p ps)).
Proof.
  induction ps as [| q qs IH]; intros p pre alts fuel Hp Hps Hf; simpl in *.
  - replace fuel with (length p + S (fuel - length p - 1)) by lia.
    rewrite parse_literal_run.
    + rewrite parse_alternatives_eof
        by (apply lookup_ge_None_2; rewrite length_app; lia).
      rewrite drop_app_length, firstn_all, length_app. done.
    + intros m Hm. destruct (lookup_lt_is_Some_2 p m Hm) as [c Hc].
      exists c. rewrite lookup_app_r by lia.
      replace (length pre + m - length pre) with m by lia.
      split; [done |]. split; [apply (literal_only_plain_lookup p m c Hp Hc) | done].
    + by rewrite lookup_ge_None_2 by (rewrite length_app; lia).
    + by rewrite lookup_ge_None_2 by (rewrite length_app; lia).
  - rewrite length_app in Hf. simpl in Hf.
    apply Forall_cons in Hps as [Hq Hqs].
    assert ((pre ++ p ++ "|" :: alternation q qs) !! (length pre + length p)
            = Some "|") as Hbar.
    { rewrite lookup_app_r by lia.
      replace (length pre + length p - length pre) with (length p) by lia.
      by rewrite lookup_app_r, Nat.sub_diag by lia. }
    replace fuel with (length p + S (fuel - length p - 1)) by lia.
    rewrite parse_literal_run.
    + rewrite parse_alternatives_bar by done.
      rewrite drop_app_length, take_app_length.
      replace (pre ++ p ++ "|" :: alternation q qs)
        with ((pre ++ p ++ ["|"]) ++ alternation q qs)
        by (by rewrite <- !app_assoc).
      replace (length pre + length p + 1) with (length (pre ++ p ++ ["|"]))
        by (rewrite !length_app; simpl; lia).
      rewrite IH by (done || lia). by rewrite <- (app_assoc alts).
    + intros m Hm. destruct (lookup_lt_is_Some_2 p m Hm) as [c Hc].
      exists c. rewrite lookup_app_r by lia.
      replace (length pre + m - length pre) with m by lia.
      rewrite lookup_app_l by done.
      split; [done |]. split; [apply (literal_only_plain_lookup p m c Hp Hc) | done].
    + by rewrite Hbar.
    + by rewrite Hbar.
Qed.

Lemma alternation_chars p ps c :
  literal_only p = true → Forall (λ q, literal_only q = true) ps →
  c ∈ alternation p ps → c ≠ "^" ∧ c ≠ "$".
Proof.
  revert p. induction ps as [| q qs IH]; intros p Hp Hps; simpl.
  - intros (m & Hm)%list_elem_of_lookup.
    pose proof (literal_only_lookup _ _ _ Hp Hm) as Hc.
    split; intros ->; apply Hc; metachar.
  - apply Forall_cons in Hps as [Hq Hqs].
    intros [(m & Hm)%list_elem_of_lookup | [-> | Hin]%elem_of_cons]%elem_of_app.
    + pose proof (literal_only_lookup _ _ _ Hp Hm) as Hc.
      split; intros ->; apply Hc; metachar.
    + done.
    + by apply (IH q).
Qed.

Lemma no_anchor_chars pattern :
  (∀ c, c ∈ pattern → c ≠ "^" ∧ c ≠ "$") →
  anchor_start pattern = false ∧ anchor_end pattern = false
  ∧ strip_anchors pattern = pattern.
Proof.
  intros H.
  assert (anchor_start pattern = false) as Ha.
  { unfold anchor_start, startswith. destruct pattern as [| c p]; [done |].
    apply bool_decide_eq_false. apply H. by left. }
  assert (anchor_end pattern = false) as He.
  { unfold anchor_end, strip_start, endswith. rewrite Ha.
    destruct (last pattern) as [c |] eqn:Hc; [| done].
    apply bool_decide_eq_false. apply H.
    rewrite last_lookup in Hc. by eapply list_elem_of_lookup_2. }
  unfold strip_anchors, strip_start. by rewrite He, Ha.
Qed.

Lemma tokens_lang_group alternatives w :
  tokens_lang [Token (Group alternatives) QNone] w
  ↔ ∃ alt, alt ∈ alternatives ∧ tokens_lang alt w.
Proof.
  rewrite tokens_lang_cons. simpl. setoid_rewrite Exists_exists.
  setoid_rewrite list_elem_of_fmap. split.
  - intros (w1 & w2 & -> & (L & (alt & -> & Hin) & HL) & ->).
    rewrite app_nil_r. eauto.
  - intros (alt & Hin & Hw). exists w, []. rewrite app_nil_r.
    split; [done |]. split; [| done]. exists (seq_lang token_lang alt). eauto.
Qed.

(** X19.  A pattern that is an alternation p|q1|...|qn of literal characters
    (none of \ [ ] ^ $ . ( ) | + ? inside the parts) compiles to the literals
    of p when there is no bar, and otherwise to one group whose alternatives
    are the literals of the parts; it matches an input iff one of the parts
    is a contiguous part of the input. *)
Theorem literal_alternation_spec input_line p ps :
  literal_only p = true → Forall (λ q, literal_only q = true) ps →
  parse_pattern (alternation p ps)
  = Ret (match ps with
         | [] => literals p
         | _ => [Token (Group (literals p :: (literals <$> ps))) QNone]
         end)
  ∧ ∃ b, matches input_line (alternation p ps) = Ret b
         ∧ (b = true ↔ ∃ q, q ∈ p :: ps ∧ substring q input_line).
Proof.
  intros Hp Hps.
  assert (parse_pattern (alternation p ps)
          = Ret (match ps with
                 | [] => literals p
                 | _ => [Token (Group (literals p :: (literals <$> ps))) QNone]
                 end)) as Hparse.
  { unfold parse_pattern.
    rewrite (parse_alternation ps p [] []) by (done || lia).
    by destruct ps. }
  split; [done |].
  destruct (no_anchor_chars (alternation p ps)) as (Ha & He & Hs).
  { intros c. by apply alternation_chars. }
  eexists. split; [by rewrite matches_eq, Hs, Hparse, Ha, He |].
  rewrite match_result_search. destruct ps as [| q qs].
  - setoid_rewrite tokens_lang_literals. split.
    + intros (w & -> & Hsub). exists p. split; [by left | done].
    + intros (q & ->%list_elem_of_singleton & Hsub). eauto.
  - setoid_rewrite tokens_lang_group. split.
    + intros (w & (alt & Hin & Hw) & Hsub).
      change (literals p :: (literals <$> q :: qs))
        with (literals <$> p :: q :: qs) in Hin.
      apply list_elem_of_fmap in Hin as (r & -> & Hr).
      apply tokens_lang_literals in Hw as ->. eauto.
    + intros (r & Hr & Hsub). exists r. split; [| done].
      exists (literals r). split; [| by apply tokens_lang_literals].
      change (literals p :: (literals <$> q :: qs))
        with (literals <$> p :: q :: qs).
      apply list_elem_of_fmap. eauto.
Qed.

Lemma literal_alternation_spec_witness :
  ∃ b, matches (str "a dog") (alternation (str "cat") [str "dog"; str "cow"])
       = Ret b
       ∧ (b = true ↔ ∃ q, q ∈ [str "cat"; str "dog"; str "cow"]
                          ∧ substring q (str "a dog")).
Proof.
  apply (literal_alternation_spec (str "a dog") (str "cat")
           [str "dog"; str "cow"]); [reflexivity |].
  repeat constructor.
Defined.

(* ===================================================================== *)
(* The order in which end positions are tried                            *)
(* ===================================================================== *)

(** X20.  The order in which the OneOrMore cases try the next positions
    (longest run first, reachable positions in descending order) has no
    effect on the set that is returned: the loop that joins the results of
    the rest over a list of positions returns the same set for every
    permutation of the list; and the list sorted(reachable, reverse=True)
    holds exactly the reachable positions, each once. *)
Theorem try_order_irrelevant (f : nat → res (gset nat)) F xs ys results :
  (∀ x, f x = Ret (F x)) → xs ≡ₚ ys →
  update_each f xs results = update_each f ys results
  ∧ (∀ reachable, sorted_desc reachable ≡ₚ elements reachable)
  ∧ ∀ max_k, range_down max_k ≡ₚ seq 1 max_k.
Proof.
  intros Hf Hp. split; [| split].
  - rewrite !(update_each_ret f F) by done. do 2 f_equal.
    apply set_eq. intros e. rewrite !elem_of_union_list.
    by setoid_rewrite Hp.
  - apply sorted_desc_perm.
  - intros max_k. unfold range_down. apply reverse_Permutation.
Qed.

Lemma try_order_irrelevant_witness :
  update_each (match_from 5 (str "aab") [Token (Literal "b") QNone]) [2; 1] ∅
  = update_each (match_from 5 (str "aab") [Token (Literal "b") QNone]) [1; 2] ∅.
Proof.
  apply (try_order_irrelevant
           (match_from 5 (str "aab") [Token (Literal "b") QNone])
           (match_set (str "aab") [Token (Literal "b") QNone]) [2; 1] [1; 2] ∅).
  - intros x. apply match_from_ret. simpl. lia.
  - apply Permutation_swap.
Defined.

(* ===================================================================== *)
(* Literal patterns                                                      *)
(* ===================================================================== *)




(* ===================================================================== *)
(* The errors of the compiler                                            *)
(* ===================================================================== *)

Lemma open_groups_fuel pattern fuel fuel' i depth :
  length pattern - i < fuel → fuel ≤ fuel' →
  open_groups fuel' pattern i depth = open_groups fuel pattern i depth.
Proof.
  revert fuel' i depth.
  induction fuel as [| fuel IH]; intros fuel' i depth Hf Hle; [lia |].
  destruct fuel' as [| fuel']; [lia |]. simpl.
  destruct (pattern !! i) as [c |] eqn:Hc; [| done].
  apply lookup_lt_Some in Hc as Hlt.
  repeat case_decide; try (apply IH; lia).
  destruct (find "]" pattern (i + 1)) as [close |] eqn:Hfind; [| done].
  apply find_Some in Hfind as [Hge _]. apply IH; lia.
Qed.

Section brackets.
Variable pattern : list ascii.

(* reading from index i with the fuel that index needs *)
Let og (i depth : nat) : res nat :=
  open_groups (S (length pattern - i)) pattern i depth.

Lemma og_fuel fuel i depth :
  length pattern - i < fuel → open_groups fuel pattern i depth = og i depth.
Proof. intros Hf. unfold og. apply open_groups_fuel; lia. Qed.

Lemma og_end i depth : pattern !! i = None → og i depth = Ret depth.
Proof. intros Hc. unfold og. simpl. by rewrite Hc. Qed.

Lemma og_escape i depth :
  pattern !! i = Some "\" → og i depth = og (i + 2) depth.
Proof.
  intros Hc. unfold og at 1. simpl. rewrite Hc. simpl.
  apply lookup_lt_Some in Hc. apply og_fuel. lia.
Qed.

Lemma og_class_open i depth :
  pattern !! i = Some "[" → find "]" pattern (i + 1) = None →
  og i depth = Raise UnterminatedClass.
Proof. intros Hc Hfind. unfold og. simpl. by rewrite Hc, Hfind. Qed.

Lemma og_class i depth close :
  pattern !! i = Some "[" → find "]" pattern (i + 1) = Some close →
  og i depth = og (close + 1) depth.
Proof.
  intros Hc Hfind. unfold og at 1. simpl. rewrite Hc, Hfind. simpl.
  apply find_Some in Hfind as [Hge _]. apply lookup_lt_Some in Hc.
  apply og_fuel. lia.
Qed.

Lemma og_group i depth :
  pattern !! i = Some "(" → og i depth = og (i + 1) (S depth).
Proof.
  intros Hc. unfold og at 1. simpl. rewrite Hc. simpl.
  apply lookup_lt_Some in Hc. apply og_fuel. lia.
Qed.

Lemma og_close i depth :
  pattern !! i = Some ")" → og i depth = og (i + 1) (pred depth).
Proof.
  intros Hc. unfold og at 1. simpl. rewrite Hc. simpl.
  apply lookup_lt_Some in Hc. apply og_fuel. lia.
Qed.

Lemma og_other i depth c :
  pattern !! i = Some c → c ≠ "\" → c ≠ "[" → c ≠ "(" → c ≠ ")" →
  og i depth = og (i + 1) depth.
Proof.
  intros Hc H1 H2 H3 H4. unfold og at 1. simpl. rewrite Hc.
  rewrite !decide_False by done.
  apply lookup_lt_Some in Hc. apply og_fuel. lia.
Qed.

(* What a call of parse_alternatives does, read on the brackets: a call for
   the top level (no group open) and a call for a group (depth > 0). *)
Lemma parse_alternatives_og fuel end_char i alts seq depth :
  length pattern - i < fuel →
  (end_char = None ∧ depth = 0) ∨ (end_char = Some ")" ∧ 0 < depth) →
  match parse_alternatives fuel pattern end_char i alts seq with
  | Ret (_, j) =>
      match end_char with
      | None => og i depth = Ret 0
      | Some _ => og i depth = og j (pred depth)
      end
  | Raise UnterminatedClass => og i depth = Raise UnterminatedClass
  | Raise UnterminatedGroup => ∃ n, og i depth = Ret (S n)
  | OutOfFuel => False
  end.
Proof.
  revert end_char i alts seq depth.
  induction fuel as [| fuel IH]; intros end_char i alts seq depth Hf Hend; [lia |].
  destruct (pattern !! i) as [c |] eqn:Hc.
  2:{ simpl. rewrite Hc. rewrite og_end by done.
      destruct Hend as [[-> ->] | [-> Hd]]; [done |].
      exists (pred depth). f_equal. lia. }
  apply lookup_lt_Some in Hc as Hlt.
  destruct (decide (end_char = Some c)) as [-> | Hec].
  { rewrite parse_alternatives_close by done.
    destruct Hend as [[[=] _] | [[= ->] _]]. by apply og_close. }
  destruct (decide (c = "|")) as [-> | Hbar].
  { rewrite parse_alternatives_bar by done.
    rewrite (og_other _ _ "|") by done. apply IH; [lia | done]. }
  rewrite (parse_alternatives_step _ _ _ _ _ _ c) by done.
  assert (match parse_atom
                  (λ j, parse_alternatives fuel pattern (Some ")") j [] [])
                  pattern i c with
          | Ret (_, j0) => i < j0 ∧ og i depth = og j0 depth
          | Raise UnterminatedClass => og i depth = Raise UnterminatedClass
          | Raise UnterminatedGroup => ∃ n, og i depth = Ret (S n)
          | OutOfFuel => False
          end) as Hatom.
  { unfold parse_atom. destruct (decide (c = "\")) as [-> | Hesc].
    { rewrite og_escape by done. unfold parse_escape.
      destruct (pattern !! (i + 1)) as [esc |] eqn:Hesc.
      - repeat case_decide; (split; [lia | done]).
      - split; [lia |]. rewrite !og_end; [done | done |].
        apply lookup_ge_None. apply lookup_ge_None in Hesc. lia. }
    destruct (decide (c = "[")) as [-> | Hcls].
    { unfold parse_class.
      destruct (find "]" pattern (i + 1)) as [close |] eqn:Hfind.
      - rewrite (og_class _ _ close) by done.
        apply find_Some in Hfind as [Hge _].
        simpl. destruct (startswith _ _); (split; [lia | done]).
      - by apply og_class_open. }
    destruct (decide (c = ".")) as [-> | Hdot].
    { split; [lia |]. by apply (og_other _ _ "."). }
    destruct (decide (c = "(")) as [-> | Hgrp].
    { rewrite og_group by done.
      specialize (IH (Some ")") (i + 1) [] [] (S depth)).
      pose proof (parse_alternatives_progress pattern fuel (Some ")") (i + 1)
                    [] []) as Hprog.
      destruct (parse_alternatives fuel pattern (Some ")") (i + 1) [] [])
        as [[inner j0] | [] |]; simpl.
      - split.
        + destruct Hprog as [_ Hprog]; [lia | lia |].
          destruct (Hprog inner j0 eq_refl) as [_ Hlt']. specialize (Hlt' ltac:(done)).
          lia.
        + apply IH; [lia | right; split; [done | lia]].
      - apply IH; [lia | right; split; [done | lia]].
      - apply IH; [lia | right; split; [done | lia]].
      - apply IH; [lia | right; split; [done | lia]]. }
    split; [lia |]. destruct (decide (c = ")")) as [-> | Hcl].
    - rewrite og_close by done. destruct Hend as [[_ ->] | [-> _]]; done.
    - by apply (og_other _ _ c). }
  destruct (parse_atom _ pattern i c) as [[k j0] | [] |]; simpl; try done.
  destruct Hatom as [Hj0 ->].
  destruct (parse_quant pattern j0) as [quant j'] eqn:Hq.
  assert (j0 ≤ j' ∧ og j0 depth = og j' depth) as [Hj' ->].
  { apply parse_quant_progress in Hq as (Hle & _ & [-> | [-> Hquant]]);
      [done |]. split; [lia |].
    destruct Hquant as [Hquant | Hquant];
      by rewrite (og_other _ _ _ Hquant). }
  apply IH; [lia | done].
Qed.

(* The compiler and the reading of the brackets agree. *)
Lemma parse_pattern_unclosed :
  match parse_pattern pattern with
  | Ret _ => unclosed pattern = Ret 0
  | Raise UnterminatedClass => unclosed pattern = Raise UnterminatedClass
  | Raise UnterminatedGroup => ∃ n, unclosed pattern = Ret (S n)
  | OutOfFuel => False
  end.
Proof.
  pose proof (parse_alternatives_og (S (length pattern)) None 0 [] [] 0) as H.
  assert (og 0 0 = unclosed pattern) as Hog.
  { unfold og, unclosed. by rewrite Nat.sub_0_r. }
  rewrite Hog in H. unfold parse_pattern.
  destruct (parse_alternatives _ _ _ _ _ _) as [[alts idx] | [] |]; simpl;
    try (apply H; [lia | by left]).
  destruct alts as [| ? [|]]; (apply H; [lia | by left]).
Qed.
End brackets.

(** C6 (as stated, it fails).  The pattern "\[" contains a [ with no ]
    anywhere after it and the pattern "\(" a ( with no ) after it, and both
    compile without error: the escaped character is a literal.  The pattern
    "(a[" contains a ( whose ) is never found, and compiling it fails with
    UnterminatedClass, not with UnterminatedGroup. *)
Lemma unterminated_counterexample :
  str "\[" !! 1 = Some "[" ∧ find "]" (str "\[") 0 = None
  ∧ parse_pattern (str "\[") = Ret [Token (Literal "[") QNone]
  ∧ matches (str "a[b") (str "\[") = Ret true
  ∧ str "\(" !! 1 = Some "(" ∧ find ")" (str "\(") 0 = None
  ∧ parse_pattern (str "\(") = Ret [Token (Literal "(") QNone]
  ∧ str "(a[" !! 0 = Some "(" ∧ find ")" (str "(a[") 0 = None
  ∧ parse_pattern (str "(a[") = Raise UnterminatedClass.
Proof. repeat split; by vm_compute. Qed.

(** C6 (amended).  Errors are raised only during compilation, never during
    matching.  Read the pattern from left to right, a backslash making the
    character after it a literal and a [ starting a class that extends to
    the next ]: compiling fails with UnterminatedClass iff this reading meets
    a [ that starts a class and has no ] anywhere after it (e.g. "[abc");
    otherwise it fails with UnterminatedGroup iff some ( met by this reading
    is left without its ) at the end of the pattern, each ) closing the group
    opened last (e.g. "(abc", and also "[a](b" and "((a)"); otherwise the
    pattern compiles.  match_from returns a set for every token sequence,
    and for every pattern that compiles, matching any input returns a
    boolean; matching fails with an error only when the compilation of the
    pattern, its anchors removed, fails with that error. *)
Theorem errors_only_in_compilation :
  (∀ pattern,
     (parse_pattern pattern = Raise UnterminatedClass
      ↔ unclosed pattern = Raise UnterminatedClass)
     ∧ (parse_pattern pattern = Raise UnterminatedGroup
        ↔ ∃ n, unclosed pattern = Ret (S n))
     ∧ ((∃ tokens, parse_pattern pattern = Ret tokens)
        ↔ unclosed pattern = Ret 0))
  ∧ parse_pattern (str "[abc") = Raise UnterminatedClass
  ∧ parse_pattern (str "(abc") = Raise UnterminatedGroup
  ∧ parse_pattern (str "[a](b") = Raise UnterminatedGroup
  ∧ parse_pattern (str "((a)") = Raise UnterminatedGroup
  ∧ parse_pattern (str "\\[") = Raise UnterminatedClass
  ∧ parse_pattern (str "\\(") = Raise UnterminatedGroup
  ∧ unclosed (str "((a)") = Ret 1
  ∧ unclosed (str "\[") = Ret 0
  ∧ unclosed (str "[(]") = Ret 0
  ∧ unclosed (str "a)(b)") = Ret 0
  ∧ (∀ line tokens pos,
       ∃ ends, match_from (S (S (length line))) line tokens pos = Ret ends)
  ∧ (∀ input_line pattern tokens,
       parse_pattern (strip_anchors pattern) = Ret tokens →
       ∃ b, matches input_line pattern = Ret b)
  ∧ (∀ input_line pattern e,
       matches input_line pattern = Raise e
       ↔ parse_pattern (strip_anchors pattern) = Raise e).
Proof.
  split.
  { intros pattern. pose proof (parse_pattern_unclosed pattern) as H.
    destruct (parse_pattern pattern) as [tokens | [] |]; [| | | done].
    - rewrite H. naive_solver.
    - rewrite H. naive_solver.
    - destruct H as [n ->]. naive_solver. }
  do 10 (split; [by vm_compute |]).
  split; [| split].
  - intros line tokens pos. eexists. by apply match_from_ret.
  - intros input_line pattern tokens Hp. rewrite matches_eq, Hp. by eexists.
  - intros input_line pattern e. rewrite matches_eq.
    destruct (parse_pattern (strip_anchors pattern)); simpl;
      [split; discriminate | split; by intros [= ->] | split; discriminate].
Qed.

Lemma errors_only_in_compilation_witness :
  ∃ b, matches (str "abc") (str "^a(b|c)+$") = Ret b.
Proof.
  apply (proj1 (proj2 (proj2 (proj2 (proj2 (proj2 (proj2 (proj2 (proj2 (proj2
          (proj2 (proj2 (proj2 errors_only_in_compilation))))))))))))
           (str "abc") (str "^a(b|c)+$")
           [Token (Literal "a") QNone;
            Token (Group [[Token (Literal "b") QNone];
                          [Token (Literal "c") QNone]]) OneOrMore]).
  reflexivity.
Defined.
